(** * Basic-block generation and SSA translation (metalibm_core/opt/p_gen_bb.py)

    A shallow embedding of the control-flow lowering pass and of the SSA
    construction pass of metalibm, with the properties of their
    specification stated and proved on the embedding.

    Python objects are compared and hashed by identity: an object is a
    reference into an explicit store ([heap]).  Python exceptions, failed
    assertions and exhausted fuel are the [None] of an [option] result. *)

From stdpp Require Import gmap list sets.


(** ** The object store *)

Module IR.

Abbreviation ref := nat.

(** The node classes the pass tests with [isinstance] or builds.  They are
    declared in ml_operations.py and bb_operations.py; [KOperation] stands
    for every other operation class and [KLeafNode] for every other
    [ML_LeafNode] class. *)
Inductive kind :=
  | KVariable
  | KConstant
  | KEmptyOperand
  | KLeafNode
  | KReferenceAssign
  | KPhiNode
  | KUnconditionalBranch
  | KConditionalBranch
  | KBasicBlock
  | KBasicBlockList
  | KOperation.

#[export] Instance kind_eq_dec : EqDecision kind.
Proof. solve_decision. Defined.

(** An object: its class and its operand tuple ([get_inputs()]). *)
Record obj := Obj { kind_of : kind; inputs : list ref }.

#[export] Instance obj_eq_dec : EqDecision obj.
Proof. solve_decision. Defined.

Abbreviation heap := (gmap ref obj).

(** [isinstance(node, ML_LeafNode)]; the placeholder [EmptyOperand] is taken
    to be a leaf class, as [Variable] and [Constant] are. *)
Definition is_ML_LeafNode (k : kind) : bool :=
  match k with
  | KVariable | KConstant | KEmptyOperand | KLeafNode => true
  | _ => false
  end.

Definition isinstance (h : heap) (r : ref) (k : kind) : bool :=
  match h !! r with
  | Some o => bool_decide (kind_of o = k)
  | None => false
  end.

(** [node.get_inputs()] and [node.get_input(i)] *)
Definition get_inputs (h : heap) (r : ref) : option (list ref) :=
  inputs <$> h !! r.

Definition get_input (h : heap) (r : ref) (i : nat) : option ref :=
  ins ← get_inputs h r; ins !! i.

(** [node.set_input(i, x)]: in-place replacement of one operand. *)
Definition set_input (h : heap) (r : ref) (i : nat) (x : ref) : option heap :=
  o ← h !! r;
  if decide (i < length (inputs o))
  then Some (<[r := Obj (kind_of o) (<[i := x]> (inputs o))]> h)
  else None.

(** Allocation of a new object: a reference the store does not hold. *)
Definition new_ref (h : heap) : ref := fresh (dom h : gset ref).

Definition alloc (h : heap) (o : obj) : heap * ref :=
  (<[new_ref h := o]> h, new_ref h).

(** A store in which every operand of every object is an object. *)
Definition closed (h : heap) : Prop :=
  ∀ r o i, h !! r = Some o → i ∈ inputs o → is_Some (h !! i).

Definition closedb (h : heap) : bool :=
  bool_decide (map_Forall (λ _ o, Forall (λ i, is_Some (h !! i)) (inputs o)) h).

(** A store in which the leaf nodes have no operand. *)
Definition leaves_without_inputs (h : heap) : Prop :=
  ∀ r o, h !! r = Some o → is_ML_LeafNode (kind_of o) = true → inputs o = [].

Definition leaves_without_inputsb (h : heap) : bool :=
  bool_decide
    (map_Forall (λ _ o, is_ML_LeafNode (kind_of o) = true → inputs o = []) h).

Definition is_Variable (h : heap) (r : ref) : Prop :=
  ∃ o, h !! r = Some o ∧ kind_of o = KVariable.

(** [m] is reached from [n] through operands. *)
Inductive reach (h : heap) : ref → ref → Prop :=
  | reach_refl n : reach h n n
  | reach_step n o i m :
      h !! n = Some o → i ∈ inputs o → reach h i m → reach h n m.

End IR.

Export IR.

(** ** Iteration order of sets and dictionaries

    The pass iterates over Python sets and over the keys of dictionaries,
    and pops arbitrary members of sets.  The order is not fixed by the
    language: it is a parameter of the embedding, constrained only to
    enumerate the members. *)

Record CFGEdge := mkCFGEdge { src : ref; dst : ref }.

#[export] Instance CFGEdge_eq_dec : EqDecision CFGEdge.
Proof. solve_decision. Defined.

Class IterOrder := {
  iter_set : gset ref → list ref;
  iter_set_perm : ∀ s, iter_set s ≡ₚ elements s;
  iter_edges : list CFGEdge → list CFGEdge;
  iter_edges_perm : ∀ l, iter_edges l ≡ₚ l
}.

(** The order in which stdpp lists a set, and the order of insertion for
    edges. *)
Definition default_order : IterOrder :=
  {| iter_set := elements;
     iter_set_perm := λ s, reflexivity (elements s);
     iter_edges := λ l, l;
     iter_edges_perm := λ l, reflexivity l |}.

(** ** Dominance analysis *)

Module Dominance.

Section Analysis.
Context {order : IterOrder}.

(** [build_cfg_edges_set]: the edges are objects hashed by identity, so the
    set keeps one member per [add]; it is the list of the added edges. *)
Fixpoint build_cfg_edges_loop (h : heap) (bbs : list ref)
    (cfg_edges : list CFGEdge) : option (list CFGEdge) :=
  match bbs with
  | [] => Some cfg_edges
  | bb :: rest =>
      ins ← get_inputs h bb;
      last_op ← last ins;
      o ← h !! last_op;
      match kind_of o with
      | KUnconditionalBranch =>
          d ← inputs o !! 0;
          build_cfg_edges_loop h rest (cfg_edges ++ [mkCFGEdge bb d])
      | KConditionalBranch =>
          true_dst ← inputs o !! 1;
          false_dst ← inputs o !! 2;
          build_cfg_edges_loop h rest
            (cfg_edges ++ [mkCFGEdge bb true_dst; mkCFGEdge bb false_dst])
      | _ => build_cfg_edges_loop h rest cfg_edges
      end
  end.

Definition build_cfg_edges_set (h : heap) (bb_list : ref) : option (list CFGEdge) :=
  bbs ← get_inputs h bb_list;
  build_cfg_edges_loop h bbs [].

(** [build_predominance_map_list] *)
Definition add_predecessor (m : gmap ref (list ref)) (edge : CFGEdge)
    : gmap ref (list ref) :=
  <[dst edge := default [] (m !! dst edge) ++ [src edge]]> m.

Definition build_predominance_map_list (cfg_edges : list CFGEdge)
    : gmap ref (list ref) :=
  foldl add_predecessor ∅ (iter_edges cfg_edges).

(** [set.intersection] applied to the unpacked tuple of sets: a
    [TypeError] when the tuple is empty. *)
Definition set_intersection (sets : list (gset ref)) : option (gset ref) :=
  match sets with
  | [] => None
  | s :: rest => Some (foldl (∩) s rest)
  end.

(** The value computed for [bb] at lines 330-335. *)
Definition new_dom (dominator_map : gmap ref (gset ref)) (bb : ref)
    (preds : list ref) : option (gset ref) :=
  sets ← mapM (λ pred, dominator_map !! pred) preds;
  inter ← set_intersection sets;
  Some ({[bb]} ∪ inter).

(** One execution of the [for] loop of lines 329-340. *)
Fixpoint dominator_pass (pml : gmap ref (list ref)) (keys : list ref)
    (dominator_map : gmap ref (gset ref)) (change : bool)
    : option (gmap ref (gset ref) * bool) :=
  match keys with
  | [] => Some (dominator_map, change)
  | bb :: rest =>
      preds ← pml !! bb;
      dom ← new_dom dominator_map bb preds;
      old ← dominator_map !! bb;
      dominator_pass pml rest (<[bb := dom]> dominator_map)
        (if decide (dom ≠ old) then true else change)
  end.

(** The [while True] loop of lines 326-342. *)
Fixpoint dominator_loop (fuel : nat) (pml : gmap ref (list ref))
    (dominator_map : gmap ref (gset ref)) : option (gmap ref (gset ref)) :=
  match fuel with
  | 0 => None
  | S fuel' =>
      '(dominator_map', change) ←
        dominator_pass pml (iter_set (dom pml)) dominator_map false;
      if change : bool then dominator_loop fuel' pml dominator_map'
      else Some dominator_map'
  end.

Definition init_dominator_map (bbs : list ref) : gmap ref (gset ref) :=
  foldl (λ m bb, <[bb := {[bb]}]> m) ∅ bbs.

(** Number of rounds after which the loop has stopped (see
    [dominator_loop_terminates]). *)
Definition dominator_fuel (bbs : list ref) : nat :=
  S (length bbs * length bbs).

Definition build_dominator_map (h : heap) (bb_list : ref)
    : option (gmap ref (gset ref)) :=
  cfg_edges ← build_cfg_edges_set h bb_list;
  bbs ← get_inputs h bb_list;
  dominator_loop (dominator_fuel bbs)
    (build_predominance_map_list cfg_edges) (init_dominator_map bbs).

(** [build_immediate_dominator_map]: the inner loop of lines 357-362. *)
Fixpoint is_imm_loop (dominator_map : gmap ref (gset ref)) (bb dom : ref)
    (others : list ref) : option bool :=
  match others with
  | [] => Some true
  | other_dom :: rest =>
      if decide (other_dom = dom ∨ other_dom = bb)
      then is_imm_loop dominator_map bb dom rest
      else
        s ← dominator_map !! other_dom;
        if decide (dom ∈ (s : gset ref)) then Some false
        else is_imm_loop dominator_map bb dom rest
  end.

(** The loop of lines 352-365 over the candidates [doms]; [all] is the
    whole of [dominator_map[bb]], which the inner loop walks again. *)
Fixpoint find_imm_dom (dominator_map : gmap ref (gset ref)) (bb : ref)
    (all doms : list ref) : option (option ref) :=
  match doms with
  | [] => Some None
  | dom :: rest =>
      if decide (dom = bb) then find_imm_dom dominator_map bb all rest
      else
        is_imm ← is_imm_loop dominator_map bb dom all;
        if is_imm : bool then Some (Some dom)
        else find_imm_dom dominator_map bb all rest
  end.

Fixpoint build_immediate_dominator_loop (dominator_map : gmap ref (gset ref))
    (bbs : list ref) (immediate_dominator_map : gmap ref ref)
    : option (gmap ref ref) :=
  match bbs with
  | [] => Some immediate_dominator_map
  | bb :: rest =>
      s ← dominator_map !! bb;
      found ← find_imm_dom dominator_map bb (iter_set s) (iter_set s);
      build_immediate_dominator_loop dominator_map rest
        (match found with
         | Some dom => <[bb := dom]> immediate_dominator_map
         | None => immediate_dominator_map
         end)
  end.

Definition build_immediate_dominator_map (dominator_map : gmap ref (gset ref))
    (bbs : list ref) : option (gmap ref ref) :=
  build_immediate_dominator_loop dominator_map bbs ∅.

(** [does_not_strictly_dominate] *)
Definition does_not_strictly_dominate (dominator_map : gmap ref (gset ref))
    (x y : ref) : option bool :=
  if decide (x = y) then Some true
  else
    s ← dominator_map !! y;
    if decide (x ∈ (s : gset ref)) then Some false else Some true.

(** The body of the [while] loop of [get_dominance_frontiers], lines
    394-399: the frontier after the [add], and the next [x], which is
    [None] when [immediate_dominator_map[x]] raises [KeyError]. *)
Definition frontier_add (dominance_frontier : gmap ref (gset ref))
    (x d : ref) : gmap ref (gset ref) :=
  <[x := default ∅ (dominance_frontier !! x) ∪ {[d]}]> dominance_frontier.

Definition frontier_walk_body (immediate_dominator_map : gmap ref ref)
    (x d : ref) (dominance_frontier : gmap ref (gset ref))
    : gmap ref (gset ref) * option ref :=
  (frontier_add dominance_frontier x d, immediate_dominator_map !! x).

(** The [while] loop of lines 393-399 for one edge.  The two maps are the
    lazily computed properties of the graph: [None] when their computation
    raises. *)
Fixpoint frontier_walk (fuel : nat) (dominator_map : option (gmap ref (gset ref)))
    (immediate_dominator_map : option (gmap ref ref)) (x d : ref)
    (dominance_frontier : gmap ref (gset ref)) : option (gmap ref (gset ref)) :=
  match fuel with
  | 0 => None
  | S fuel' =>
      dm ← dominator_map;
      continue ← does_not_strictly_dominate dm x d;
      if continue : bool then
        idom ← immediate_dominator_map;
        let '(dominance_frontier', next) :=
          frontier_walk_body idom x d dominance_frontier in
        x' ← next;
        frontier_walk fuel' dominator_map immediate_dominator_map x' d
          dominance_frontier'
      else Some dominance_frontier
  end.

Fixpoint frontier_edges (fuel : nat) (dominator_map : option (gmap ref (gset ref)))
    (immediate_dominator_map : option (gmap ref ref)) (edges : list CFGEdge)
    (dominance_frontier : gmap ref (gset ref)) : option (gmap ref (gset ref)) :=
  match edges with
  | [] => Some dominance_frontier
  | edge :: rest =>
      dominance_frontier' ←
        frontier_walk fuel dominator_map immediate_dominator_map
          (src edge) (dst edge) dominance_frontier;
      frontier_edges fuel dominator_map immediate_dominator_map rest
        dominance_frontier'
  end.

(** [get_dominance_frontiers]; [fuel] bounds the length of each walk up the
    immediate dominators. *)
Definition get_dominance_frontiers (fuel : nat) (h : heap) (bb_list : ref)
    : option (gmap ref (gset ref)) :=
  cfg_edges ← build_cfg_edges_set h bb_list;
  bbs ← get_inputs h bb_list;
  let dominator_map := build_dominator_map h bb_list in
  let immediate_dominator_map :=
    dm ← dominator_map; build_immediate_dominator_map dm bbs in
  frontier_edges fuel dominator_map immediate_dominator_map
    (iter_edges cfg_edges) ∅.

End Analysis.

(** *** Specification *)

(** [p] is a predecessor of [n] in the control-flow graph. *)
Definition is_pred (edges : list CFGEdge) (p n : ref) : Prop :=
  mkCFGEdge p n ∈ edges.

(** [dominator_map[k]], empty at a missing key. *)
Definition dom_of (dm : gmap ref (gset ref)) (k : ref) : gset ref :=
  default ∅ (dm !! k).

(** The least relation closed under the two equations of the dominator
    sets. *)
Inductive Dom (edges : list CFGEdge) : ref → ref → Prop :=
  | Dom_refl n : Dom edges n n
  | Dom_pred d n :
      (∃ p, is_pred edges p n) →
      (∀ p, is_pred edges p n → Dom edges d p) →
      Dom edges d n.

(** The invariant of the iteration over the blocks [B]. *)
Record dom_inv (edges : list CFGEdge) (B : gset ref)
    (dm : gmap ref (gset ref)) : Prop := {
  inv_dom : dom dm = B;
  inv_self : ∀ k s, dm !! k = Some s → k ∈ s;
  inv_sub : ∀ k s, dm !! k = Some s → s ⊆ B;
  inv_sound : ∀ k s d, dm !! k = Some s → d ∈ s → Dom edges d k;
  inv_nopred : ∀ k s, dm !! k = Some s → (∀ p, ¬ is_pred edges p k) → s = {[k]};
  inv_pre : ∀ k s d, dm !! k = Some s → d ∈ s →
            d = k ∨ ∀ p, is_pred edges p k → d ∈ dom_of dm p
}.

(** The measure of the iteration: the sum of the sizes of the sets. *)
Definition total_size (B : gset ref) (dm : gmap ref (gset ref)) : nat :=
  sum_list ((λ k, size (dom_of dm k)) <$> elements B).

Definition idom_ok (dm : gmap ref (gset ref)) (idom : gmap ref ref) : Prop :=
  ∀ b d, idom !! b = Some d → d ∈ dom_of dm b ∧ d ≠ b.

(** What the specification states of a member [y] of the frontier of
    [x]. *)
Definition frontier_pair_ok (edges : list CFGEdge) (dm : gmap ref (gset ref))
    (x y : ref) : Prop :=
  (∃ p, is_pred edges p y ∧ x ∈ dom_of dm p) ∧ (x = y ∨ x ∉ dom_of dm y).

Definition frontier_ok (edges : list CFGEdge) (dm df : gmap ref (gset ref)) : Prop :=
  ∀ x y, y ∈ dom_of df x → frontier_pair_ok edges dm x y.

End Dominance.

(** ** Node-to-block assignment *)

Module NodeAssignment.

Section Assignment.
Context {order : IterOrder}.

(** [isinstance(node, ControlFlowOperation)]: the class hierarchy of
    ml_operations.py and bb_operations.py is not part of the sources. *)
Variable is_ControlFlowOperation : kind → bool.

(** The comprehension of line 174: the recursive calls on the operands, in
    order, with the memoization dictionary threaded through them. *)
Fixpoint vars_of_inputs
    (rec : gmap ref (gset ref) → ref → option (gset ref * gmap ref (gset ref)))
    (ops : list ref) (memo : gmap ref (gset ref)) (acc : gset ref)
    : option (gset ref * gmap ref (gset ref)) :=
  match ops with
  | [] => Some (acc, memo)
  | op :: rest =>
      '(vars, memo') ← rec memo op;
      vars_of_inputs rec rest memo' (acc ∪ vars)
  end.

(** [get_recursive_op_graph_vars]: the variables below [node], and the
    memoization dictionary after the call. *)
Fixpoint get_recursive_op_graph_vars (fuel : nat) (h : heap)
    (memoization_map : gmap ref (gset ref)) (node : ref)
    : option (gset ref * gmap ref (gset ref)) :=
  match fuel with
  | 0 => None
  | S fuel' =>
      match memoization_map !! node with
      | Some result => Some (result, memoization_map)
      | None =>
          o ← h !! node;
          if decide (kind_of o = KVariable)
          then Some ({[node]}, <[node := {[node]}]> memoization_map)
          else if is_ML_LeafNode (kind_of o)
          then Some (∅, <[node := ∅]> memoization_map)
          else
            '(result, memo) ←
              vars_of_inputs (get_recursive_op_graph_vars fuel' h) (inputs o)
                (<[node := ∅]> memoization_map) ∅;
            Some (result, <[node := result]> memo)
      end
  end.

(** The copies of the operands of a node, in order. *)
Fixpoint copy_inputs
    (rec : heap → gmap ref ref → ref → option (heap * gmap ref ref * ref))
    (ops : list ref) (h : heap) (copy_map : gmap ref ref) (acc : list ref)
    : option (heap * gmap ref ref * list ref) :=
  match ops with
  | [] => Some (h, copy_map, acc)
  | op :: rest =>
      '(h', copy_map', c) ← rec h copy_map op;
      copy_inputs rec rest h' copy_map' (acc ++ [c])
  end.

(** Modelled from the spec: [node.copy(copy_map)] of ml_operations.py, which
    is not part of the sources.  A deep copy: a node recorded in [copy_map]
    is replaced by its image, any other node is copied after its operands
    and recorded. *)
Fixpoint copy (fuel : nat) (h : heap) (copy_map : gmap ref ref) (node : ref)
    : option (heap * gmap ref ref * ref) :=
  match fuel with
  | 0 => None
  | S fuel' =>
      match copy_map !! node with
      | Some c => Some (h, copy_map, c)
      | None =>
          o ← h !! node;
          '(h1, copy_map1, ins) ←
            copy_inputs (copy fuel') (inputs o) h copy_map [];
          let '(h2, c) := alloc h1 (Obj (kind_of o) ins) in
          Some (h2, <[node := c]> copy_map1, c)
      end
  end.

(** [dict((var, var) for var in var_list)] *)
Definition identity_map (var_list : gset ref) : gmap ref ref :=
  set_to_map (λ var, (var, var)) var_list.

(** [copy_up_to_variables] *)
Definition copy_up_to_variables (fuel : nat) (h : heap) (node : ref)
    : option (heap * ref) :=
  '(var_list, _) ← get_recursive_op_graph_vars fuel h ∅ node;
  '(h', _, c) ← copy fuel h (identity_map var_list) node;
  Some (h', c).

(** Lines 199-206 of [sort_node_by_bb]: what replaces a node found in a
    second block. *)
Definition resolve_conflict (fuel : nat) (h : heap) (node : ref)
    : option (heap * ref) :=
  o ← h !! node;
  match kind_of o with
  | KVariable => Some (h, node)
  | KConstant => '(h', _, c) ← copy fuel h ∅ node; Some (h', c)
  | _ => copy_up_to_variables fuel h node
  end.

Record sort_state := SortState {
  s_heap : heap;
  s_bb_map : gmap ref ref;
  working_set : gset ref;
  processed_nodes : gset ref
}.

(** The operands a node sends to the working set (lines 209-213). *)
Definition operands_to_visit (o : obj) : option (gset ref) :=
  if negb (is_ML_LeafNode (kind_of o)) && negb (is_ControlFlowOperation (kind_of o))
  then Some (list_to_set (inputs o))
  else if decide (kind_of o = KConditionalBranch)
  then cond ← inputs o !! 0; Some {[cond]}
  else Some ∅.

(** One iteration of the [while] loop of lines 194-213, for the popped
    [node]. *)
Definition sort_visit (fuel : nat) (bb : ref) (st : sort_state) (node : ref)
    : option sort_state :=
  let working_set' := working_set st ∖ {[node]} in
  if decide (node ∈ processed_nodes st)
  then Some (SortState (s_heap st) (s_bb_map st) working_set' (processed_nodes st))
  else
    '(h', node') ←
      match s_bb_map st !! node with
      | Some bb0 =>
          if decide (bb0 ≠ bb) then resolve_conflict fuel (s_heap st) node
          else Some (s_heap st, node)
      | None => Some (s_heap st, node)
      end;
    o ← h' !! node';
    ops ← operands_to_visit o;
    Some (SortState h' (<[node' := bb]> (s_bb_map st)) (working_set' ∪ ops)
            (processed_nodes st ∪ {[node]})).

(** The [while] loop; [steps] bounds its iterations and [fuel] the depth of
    the copies. *)
Fixpoint sort_while (steps fuel : nat) (bb : ref) (st : sort_state)
    : option sort_state :=
  match steps with
  | 0 => None
  | S steps' =>
      match iter_set (working_set st) with
      | [] => Some st
      | node :: _ =>
          st' ← sort_visit fuel bb st node;
          sort_while steps' fuel bb st'
      end
  end.

Fixpoint sort_blocks (fuel : nat) (bbs : list ref) (h : heap)
    (bb_map : gmap ref ref) : option (heap * gmap ref ref) :=
  match bbs with
  | [] => Some (h, bb_map)
  | bb :: rest =>
      ins ← get_inputs h bb;
      st ← sort_while fuel fuel bb (SortState h bb_map (list_to_set ins) ∅);
      sort_blocks fuel rest (s_heap st) (s_bb_map st)
  end.

(** [sort_node_by_bb]: the store after the call and the returned
    dictionary. *)
Definition sort_node_by_bb (fuel : nat) (h : heap) (bb_list : ref)
    : option (heap * gmap ref ref) :=
  bbs ← get_inputs h bb_list;
  sort_blocks fuel bbs h ∅.

End Assignment.

(** *** Specification *)

(** [c] is a copy of [n] up to the variables: a variable is its own copy,
    any other node is copied to a new object of the same class whose
    operands are copies of its operands. *)
#[warnings="-register-all"]
Inductive copy_of (h h' : heap) : ref → ref → Prop :=
  | copy_shared v : is_Variable h v → copy_of h h' v v
  | copy_fresh n c o ins :
      h !! n = Some o → kind_of o ≠ KVariable →
      h !! c = None → h' !! c = Some (Obj (kind_of o) ins) →
      Forall2 (copy_of h h') (inputs o) ins →
      copy_of h h' n c.

(** What a call of [get_recursive_op_graph_vars] has visited. *)
Definition visit_post (h : heap) (m : gmap ref (gset ref)) (r : gset ref)
    (m' : gmap ref (gset ref)) : Prop :=
  (∀ k, is_Some (m !! k) → is_Some (m' !! k)) ∧
  (∀ k, is_Some (m' !! k) → m !! k = None → is_Variable h k → k ∈ r) ∧
  (∀ k o i, is_Some (m' !! k) → m !! k = None → h !! k = Some o →
            i ∈ inputs o → is_Some (m' !! i)) ∧
  ((∀ k s v, m !! k = Some s → v ∈ s → is_Variable h v) →
   (∀ v, v ∈ r → is_Variable h v) ∧
   (∀ k s v, m' !! k = Some s → v ∈ s → is_Variable h v)).

(** The invariant of [copy_map] while [h] is copied into [h']. *)
Definition memo_ok (h : heap) (var_list : gset ref) (h' : heap)
    (cm : gmap ref ref) : Prop :=
  (∀ k c, cm !! k = Some c → copy_of h h' k c) ∧
  (∀ v, v ∈ var_list → cm !! v = Some v).

Definition copy_post (h : heap) (var_list : gset ref) (h1 : heap) (n : ref)
    (h2 : heap) (cm2 : gmap ref ref) (c : ref) : Prop :=
  h1 ⊆ h2 ∧ memo_ok h var_list h2 cm2 ∧ copy_of h h2 n c.

End NodeAssignment.

(** ** Phi placement *)

Module PhiPlacement.

(** The values of [variable_defs]: the set of the blocks that define an
    original variable (as [build_variable_list_and_defs] records them), or
    the defining operation of a renamed variable (as [variable_renaming]
    records it). *)
Inductive def_site :=
  | DefBlocks (bbs : gset ref)
  | DefOp (op : ref).

Section Placement.
Context {order : IterOrder}.

(** Whether [BasicBlock.push] inserts at the head of the block or at its
    end: bb_operations.py is not part of the sources. *)
Variable push_at_head : bool.

(** [bb.push(op)] *)
Definition push (h : heap) (bb op : ref) : option heap :=
  o ← h !! bb;
  Some (<[bb := Obj (kind_of o)
                  (if push_at_head then op :: inputs o else inputs o ++ [op])]> h).

(** Modelled from the spec: the constructor call
    [PhiNode(v, v, None, v, None)] of bb_operations.py; each [None] operand
    is held as a placeholder [EmptyOperand] object. *)
Definition new_PhiNode (h : heap) (v : ref) : heap * ref :=
  let '(h1, e1) := alloc h (Obj KEmptyOperand []) in
  let '(h2, e2) := alloc h1 (Obj KEmptyOperand []) in
  alloc h2 (Obj KPhiNode [v; v; e1; v; e2]).

(** [bbg.dominance_frontier_map[x]] inside the [try] of lines 452-456.  The
    property is [None] when its computation raises [KeyError]: the [except]
    clause catches that too, and [df] is empty. *)
Definition frontier_of (dominance_frontier_map : option (gmap ref (gset ref)))
    (x : ref) : gset ref :=
  match dominance_frontier_map with
  | Some m => default ∅ (m !! x)
  | None => ∅
  end.

Record placement := Placement {
  p_heap : heap;
  p_bb_map : gmap ref ref;
  p_F : gset ref;
  p_W : gset ref
}.

(** The body of the [for y in df] loop, lines 459-469. *)
Definition place_phi (v : ref) (def_list : gset ref) (st : placement) (y : ref)
    : option placement :=
  if decide (y ∈ p_F st) then Some st
  else
    let '(h1, phi_fct) := new_PhiNode (p_heap st) v in
    h2 ← push h1 y phi_fct;
    Some {| p_heap := h2;
            p_bb_map := <[phi_fct := y]> (p_bb_map st);
            p_F := p_F st ∪ {[y]};
            p_W := if decide (y ∈ def_list) then p_W st else p_W st ∪ {[y]} |}.

Fixpoint place_phis (v : ref) (def_list : gset ref) (ys : list ref)
    (st : placement) : option placement :=
  match ys with
  | [] => Some st
  | y :: rest =>
      st' ← place_phi v def_list st y;
      place_phis v def_list rest st'
  end.

(** The [while len(W) > 0] loop of lines 449-469. *)
Fixpoint phi_worklist (fuel : nat)
    (dominance_frontier_map : option (gmap ref (gset ref))) (v : ref)
    (def_list : gset ref) (st : placement) : option placement :=
  match fuel with
  | 0 => None
  | S fuel' =>
      match iter_set (p_W st) with
      | [] => Some st
      | x :: _ =>
          let popped :=
            {| p_heap := p_heap st; p_bb_map := p_bb_map st;
               p_F := p_F st; p_W := p_W st ∖ {[x]} |} in
          st' ← place_phis v def_list
                  (iter_set (frontier_of dominance_frontier_map x)) popped;
          phi_worklist fuel' dominance_frontier_map v def_list st'
      end
  end.

(** Every block that belongs to some dominance frontier. *)
Definition frontier_range (dominance_frontier_map : option (gmap ref (gset ref)))
    : gset ref :=
  match dominance_frontier_map with
  | Some m => ⋃ (snd <$> map_to_list m)
  | None => ∅
  end.

(** Number of iterations after which the worklist is empty (see
    [phi_worklist_terminates]). *)
Definition phi_fuel (dominance_frontier_map : option (gmap ref (gset ref)))
    (def_list : gset ref) : nat :=
  S (size def_list + size (frontier_range dominance_frontier_map)).

(** The body of the [for v in bbg.variable_list] loop, lines 440-469: the
    store, [bb_map] and the set [F] when the worklist is empty. *)
Definition insert_phi_nodes_for
    (dominance_frontier_map : option (gmap ref (gset ref)))
    (variable_defs : gmap ref def_site) (h : heap) (bb_map : gmap ref ref)
    (v : ref) : option placement :=
  site ← variable_defs !! v;
  match site with
  | DefBlocks def_list =>
      phi_worklist (phi_fuel dominance_frontier_map def_list)
        dominance_frontier_map v def_list
        {| p_heap := h; p_bb_map := bb_map; p_F := ∅; p_W := def_list |}
  | DefOp _ => None
  end.

Fixpoint phi_node_insertion_loop
    (dominance_frontier_map : option (gmap ref (gset ref)))
    (variable_defs : gmap ref def_site) (vs : list ref) (h : heap)
    (bb_map : gmap ref ref) : option (heap * gmap ref ref) :=
  match vs with
  | [] => Some (h, bb_map)
  | v :: rest =>
      st ← insert_phi_nodes_for dominance_frontier_map variable_defs h bb_map v;
      phi_node_insertion_loop dominance_frontier_map variable_defs rest
        (p_heap st) (p_bb_map st)
  end.

(** [phi_node_insertion], on the memoized properties of the graph
    ([variable_list], [variable_defs], [dominance_frontier_map], [bb_map]),
    all computed before the first phi-node is pushed. *)
Definition phi_node_insertion
    (dominance_frontier_map : option (gmap ref (gset ref)))
    (variable_list : gset ref) (variable_defs : gmap ref def_site)
    (h : heap) (bb_map : gmap ref ref) : option (heap * gmap ref ref) :=
  phi_node_insertion_loop dominance_frontier_map variable_defs
    (iter_set variable_list) h bb_map.

(** The phi-nodes for [v] among the instructions of block [bb]. *)
Definition is_phi_for (h : heap) (v : ref) (op : ref) : bool :=
  match h !! op with
  | Some (Obj KPhiNode (v' :: _)) => bool_decide (v' = v)
  | _ => false
  end.

Definition phi_nodes_for (h : heap) (v : ref) (bb : ref) : list ref :=
  match h !! bb with
  | Some o => filter (λ op, is_phi_for h v op = true) (inputs o)
  | None => []
  end.

End Placement.

(** *** Specification *)

(** The iterated dominance frontier of the definition blocks [defs]: the
    frontier of a definition block, and the frontier of a placed block that
    is not a definition block. *)
Inductive idf (dfm : option (gmap ref (gset ref))) (defs : gset ref)
    : ref → Prop :=
  | idf_def x y : x ∈ defs → y ∈ frontier_of dfm x → idf dfm defs y
  | idf_placed x y :
      idf dfm defs x → x ∉ defs → y ∈ frontier_of dfm x → idf dfm defs y.

(** One phi-node more for [v] in [y], and nothing else changed. *)
Definition phi_added (v y : ref) (h h' : heap) : Prop :=
  closed h' ∧
  (∀ r o, h !! r = Some o → ∃ o', h' !! r = Some o' ∧ kind_of o' = kind_of o) ∧
  ∀ w b, is_Some (h !! b) →
    length (phi_nodes_for h' w b) =
    length (phi_nodes_for h w b) + (if decide (w = v ∧ b = y) then 1 else 0).

(** The invariant of the worklist for the variable [v]; the blocks of
    [pending] are popped and not yet processed. *)
Record worklist_inv (dfm : option (gmap ref (gset ref))) (v : ref)
    (defs : gset ref) (h0 : heap) (pending : gset ref) (st : placement)
    : Prop := {
  wi_sound : ∀ y, y ∈ p_F st → idf dfm defs y;
  wi_W : p_W st ⊆ defs ∪ p_F st;
  wi_done : ∀ x, x ∈ defs ∪ p_F st →
            x ∈ pending ∨ x ∈ p_W st ∨ frontier_of dfm x ⊆ p_F st;
  wi_range : p_F st ⊆ frontier_range dfm;
  wi_closed : closed (p_heap st);
  wi_kinds : ∀ r o, h0 !! r = Some o →
             ∃ o', p_heap st !! r = Some o' ∧ kind_of o' = kind_of o;
  wi_count : ∀ w b, is_Some (h0 !! b) →
             length (phi_nodes_for (p_heap st) w b) =
             length (phi_nodes_for h0 w b) +
             (if decide (w = v ∧ b ∈ p_F st) then 1 else 0)
}.

Definition worklist_measure (dfm : option (gmap ref (gset ref)))
    (st : placement) : nat :=
  size (p_W st) + size (frontier_range dfm ∖ p_F st).

End PhiPlacement.

(** ** Variable renaming *)

Module Renaming.

Import PhiPlacement.

(** The memoized properties of the [BasicBlockGraph] that renaming reads. *)
Record BasicBlockGraph := mkBasicBlockGraph {
  bb_map : gmap ref ref;
  dominator_map : gmap ref (gset ref);
  variable_defs : gmap ref def_site
}.

(** [BasicBlockGraph.op_dominates] *)
Definition op_dominates (bbg : BasicBlockGraph) (op0 op1 : ref) : option bool :=
  bb0 ← bb_map bbg !! op0;
  bb1 ← bb_map bbg !! op1;
  s ← dominator_map bbg !! bb1;
  Some (bool_decide (bb0 ∈ (s : gset ref))).

(** [bbg.op_dominates(bbg.variable_defs[current], op)]: the definition of an
    original variable is a set of blocks, which is not a key of [bb_map]
    (a [TypeError]). *)
Definition def_dominates (bbg : BasicBlockGraph) (current op : ref)
    : option bool :=
  site ← variable_defs bbg !! current;
  match site with
  | DefOp def_op => op_dominates bbg def_op op
  | DefBlocks _ => None
  end.

(** The [while] loop of [updating_reaching_def], lines 557-558. *)
Fixpoint reaching_walk (fuel : nat) (bbg : BasicBlockGraph)
    (reaching_def : gmap ref (option ref)) (current : option ref) (op : ref)
    : option (option ref) :=
  match fuel with
  | 0 => None
  | S fuel' =>
      match current with
      | None => Some None
      | Some c =>
          dominates ← def_dominates bbg c op;
          if dominates : bool then Some (Some c)
          else
            next ← reaching_def !! c;
            reaching_walk fuel' bbg reaching_def next op
      end
  end.

(** [updating_reaching_def]: the dictionary after the call and the returned
    flag. *)
Definition updating_reaching_def (fuel : nat) (bbg : BasicBlockGraph)
    (reaching_def : gmap ref (option ref)) (var op : ref)
    : option (gmap ref (option ref) * bool) :=
  start ← reaching_def !! var;
  current ← reaching_walk fuel bbg reaching_def start op;
  match current with
  | None => Some (reaching_def, false)
  | Some c =>
      Some (<[var := Some c]> reaching_def, bool_decide (Some c ≠ start))
  end.

(** [get_var_used_by_non_phi] *)
Fixpoint get_var_used_by_non_phi (fuel : nat) (h : heap) (op : ref)
    : option (list ref) :=
  match fuel with
  | 0 => None
  | S fuel' =>
      o ← h !! op;
      if decide (kind_of o = KPhiNode) then Some []
      else if decide (kind_of o = KVariable) then Some [op]
      else if is_ML_LeafNode (kind_of o) then Some []
      else if decide (kind_of o = KReferenceAssign)
      then mjoin <$> mapM (get_var_used_by_non_phi fuel' h) (tail (inputs o))
      else mjoin <$> mapM (get_var_used_by_non_phi fuel' h) (inputs o)
  end.

(** The loop of lines 529-539 over the operands of [op], from [index] on. *)
Fixpoint update_inputs
    (rec : heap → gmap ref ref → ref → option (heap * gmap ref ref))
    (is_assign : bool) (op old_var new : ref) (index : nat) (ops : list ref)
    (h : heap) (memo : gmap ref ref) : option (heap * gmap ref ref) :=
  match ops with
  | [] => Some (h, memo)
  | op_input :: rest =>
      if is_assign && bool_decide (index = 0)
      then update_inputs rec is_assign op old_var new (S index) rest h memo
      else if decide (op_input = old_var)
      then
        h' ← set_input h op index new;
        update_inputs rec is_assign op old_var new (S index) rest h' memo
      else
        '(h', memo') ← rec h memo op_input;
        update_inputs rec is_assign op old_var new (S index) rest h' memo'
  end.

(** [update_used_var]: the store and the memoization dictionary after the
    call (the callers drop the returned node). *)
Fixpoint update_used_var (fuel : nat) (h : heap) (memoization_map : gmap ref ref)
    (op old_var : ref) (new_var : option ref) : option (heap * gmap ref ref) :=
  match new_var with
  | None => Some (h, memoization_map)
  | Some new =>
      match fuel with
      | 0 => None
      | S fuel' =>
          if decide (is_Some (memoization_map !! op))
          then Some (h, memoization_map)
          else
            o ← h !! op;
            if decide (kind_of o = KBasicBlock) then Some (h, memoization_map)
            else if decide (op = old_var)
            then Some (h, <[op := new]> memoization_map)
            else if is_ML_LeafNode (kind_of o)
            then Some (h, <[op := op]> memoization_map)
            else
              update_inputs
                (λ h memo op_input,
                   update_used_var fuel' h memo op_input old_var (Some new))
                (bool_decide (kind_of o = KReferenceAssign)) op old_var new
                0 (inputs o) h (<[op := op]> memoization_map)
      end
  end.

(** Lines 618-622 of [rec_bb_processing]: the uses of a non-phi
    instruction [op]. *)
Fixpoint rename_uses (fuel : nat) (bbg : BasicBlockGraph) (op : ref)
    (vars : list ref) (h : heap) (reaching_def : gmap ref (option ref))
    : option (heap * gmap ref (option ref)) :=
  match vars with
  | [] => Some (h, reaching_def)
  | var :: rest =>
      '(reaching_def', _) ← updating_reaching_def fuel bbg reaching_def var op;
      new_var ← reaching_def' !! var;
      '(h', _) ← update_used_var fuel h ∅ op var new_var;
      rename_uses fuel bbg op rest h' reaching_def'
  end.

(** Lines 617-622: the branch taken for an instruction that is not a
    phi-node. *)
Definition rename_uses_of_op (fuel : nat) (bbg : BasicBlockGraph) (op : ref)
    (h : heap) (reaching_def : gmap ref (option ref))
    : option (heap * gmap ref (option ref)) :=
  if isinstance h op KPhiNode then Some (h, reaching_def)
  else
    vars ← get_var_used_by_non_phi fuel h op;
    rename_uses fuel bbg op vars h reaching_def.

(** *** Specification *)

(** The walk of [updating_reaching_def] along the chain of reaching
    definitions: where it starts and where it stops. *)
Inductive chain_reaches (bbg : BasicBlockGraph)
    (reaching_def : gmap ref (option ref)) (op : ref)
    : option ref → option ref → Prop :=
  | chain_none : chain_reaches bbg reaching_def op None None
  | chain_found c :
      def_dominates bbg c op = Some true →
      chain_reaches bbg reaching_def op (Some c) (Some c)
  | chain_next c next r :
      def_dominates bbg c op = Some false →
      reaching_def !! c = Some next →
      chain_reaches bbg reaching_def op next r →
      chain_reaches bbg reaching_def op (Some c) r.

End Renaming.

(** ** Lowering of the structured tree to basic blocks *)

Module Lowering.

(** The operation tree handed to [Pass_GenerateBasicBlock]: the four
    structured classes [execute_on_optree] tests for, and every other
    node. *)
#[warnings="-register-all"]
Inductive optree :=
  | ConditionBlock (cond if_branch : optree) (else_branch : option optree)
  | Loop (init_statement loop_cond loop_body : optree)
  | Return (value : optree)
  | Statement (ops : list optree)
  | Other (name : nat).

(** The instructions of a basic block: nodes of the tree, and the branches
    the pass creates. *)
Inductive instr :=
  | Node (node : optree)
  | UnconditionalBranch (target : ref)
  | ConditionalBranch (cond : optree) (true_dst false_dst : ref).

Inductive bb_tag :=
  | tag_main
  | tag_bb (index : nat)
  | tag_loop_header
  | tag_loop_body
  | tag_loop_exit.

Record BasicBlock := mkBasicBlock {
  tag : bb_tag;
  bb_inputs : list instr;
  final : bool
}.

(** The state of the translator object: the store of the blocks, the
    instructions of [top_bb_list], and the attributes [current_bb_stack]
    (its last member is the current block) and [bb_tag_index]. *)
Record translator := mkTranslator {
  blocks : gmap ref BasicBlock;
  top_bb_list : list ref;
  current_bb_stack : list ref;
  bb_tag_index : nat
}.

Section Translator.

(** [isinstance(node, ControlFlowOperation)] for the nodes of the tree: the
    class hierarchy of ml_operations.py is not part of the sources. *)
Variable node_is_ControlFlowOperation : optree → bool.

(** Whether [BasicBlock.push] inserts at the head of the block or at its
    end: bb_operations.py is not part of the sources. *)
Variable push_at_head : bool.

Definition is_ControlFlowOperation (i : instr) : bool :=
  match i with
  | Node node => node_is_ControlFlowOperation node
  | UnconditionalBranch _ | ConditionalBranch _ _ _ => true
  end.

(** [bb.empty] *)
Definition empty (bb : BasicBlock) : bool :=
  bool_decide (bb_inputs bb = []).

(** Modelled from the spec: [BasicBlock.add] appends at the end of the
    block. *)
Definition add (bb : BasicBlock) (node : instr) : BasicBlock :=
  mkBasicBlock (tag bb) (bb_inputs bb ++ [node]) (final bb).

Definition push (bb : BasicBlock) (node : instr) : BasicBlock :=
  mkBasicBlock (tag bb)
    (if push_at_head then node :: bb_inputs bb else bb_inputs bb ++ [node])
    (final bb).

Definition set_blocks (st : translator) (bs : gmap ref BasicBlock) : translator :=
  mkTranslator bs (top_bb_list st) (current_bb_stack st) (bb_tag_index st).

(** [get_current_bb]: an [IndexError] on the empty stack. *)
Definition get_current_bb (st : translator) : option ref :=
  last (current_bb_stack st).

(** [push_to_current_bb] *)
Definition push_to_current_bb (node : instr) (st : translator)
    : option translator :=
  top ← last (current_bb_stack st);
  bb ← blocks st !! top;
  Some (set_blocks st (<[top := push bb node]> (blocks st))).

(** [get_new_bb_tag] *)
Definition get_new_bb_tag (given : option bb_tag) (st : translator)
    : bb_tag * translator :=
  match given with
  | Some t => (t, st)
  | None =>
      (tag_bb (bb_tag_index st),
       mkTranslator (blocks st) (top_bb_list st) (current_bb_stack st)
         (S (bb_tag_index st)))
  end.

(** [push_new_bb]: the new block is a reference the store does not hold. *)
Definition push_new_bb (given : option bb_tag) (st : translator)
    : translator * ref :=
  let '(t, st1) := get_new_bb_tag given st in
  let new_bb := fresh (dom (blocks st1) : gset ref) in
  (mkTranslator (<[new_bb := mkBasicBlock t [] false]> (blocks st1))
     (top_bb_list st1) (current_bb_stack st1 ++ [new_bb]) (bb_tag_index st1),
   new_bb).

(** The test of [add_to_bb], line 698. *)
Definition can_add (bb : BasicBlock) : bool :=
  negb (final bb) &&
  (empty bb ||
   negb (match last (bb_inputs bb) with
         | Some i => is_ControlFlowOperation i
         | None => false
         end)).

(** [add_to_bb] *)
Definition add_to_bb (bb : ref) (node : instr) (st : translator)
    : option translator :=
  b ← blocks st !! bb;
  if can_add b then Some (set_blocks st (<[bb := add b node]> (blocks st)))
  else Some st.

(** [pop_current_bb]: the state and the returned block, if any. *)
Definition pop_current_bb (force_add : bool) (st : translator)
    : option (translator * option ref) :=
  match last (current_bb_stack st) with
  | Some top =>
      b ← blocks st !! top;
      if negb (empty b) || force_add
      then Some (mkTranslator (blocks st) (top_bb_list st ++ [top])
                   (removelast (current_bb_stack st)) (bb_tag_index st),
                 Some top)
      else Some (st, None)
  | None => Some (st, None)
  end.

(** [get_current_bb().final = True] *)
Definition set_final (st : translator) : option translator :=
  top ← last (current_bb_stack st);
  bb ← blocks st !! top;
  Some (set_blocks st (<[top := mkBasicBlock (tag bb) (bb_inputs bb) true]> (blocks st))).

(** [transform_cb_to_bb]; [execute_on_optree] is the method of the
    translator it calls back. *)
Definition transform_cb_to_bb
    (execute_on_optree : optree → translator → option (translator * ref))
    (cond if_branch : optree) (else_branch : option optree) (st : translator)
    : option (translator * ref) :=
  entry_bb ← get_current_bb st;
  '(st, _) ← pop_current_bb true st;
  let '(st, if_entry) := push_new_bb None st in
  '(st, if_bb) ← execute_on_optree if_branch st;
  '(st, if_end) ← pop_current_bb true st;
  '(st, else_entry) ←
    match else_branch with
    | Some else_branch =>
        let '(st, else_entry) := push_new_bb None st in
        '(st, else_bb) ← execute_on_optree else_branch st;
        '(st, else_end) ← pop_current_bb true st;
        let '(st, next_bb) := push_new_bb None st in
        else_end ← else_end;
        st ← add_to_bb else_end (UnconditionalBranch next_bb) st;
        Some (st, else_entry)
    | None => Some (push_new_bb None st)
    end;
  next_bb ← get_current_bb st;
  st ← add_to_bb entry_bb (ConditionalBranch cond if_entry else_entry) st;
  if_end ← if_end;
  st ← add_to_bb if_end (UnconditionalBranch next_bb) st;
  Some (st, entry_bb).

(** [assert bb_translator.pop_current_bb()] *)
Definition assert_pop_current_bb (st : translator) : option translator :=
  '(st, popped) ← pop_current_bb false st;
  match popped with
  | Some _ => Some st
  | None => None
  end.

(** [transform_loop_to_bb] *)
Definition transform_loop_to_bb
    (execute_on_optree : optree → translator → option (translator * ref))
    (init_statement loop_cond loop_body : optree) (st : translator)
    : option (translator * ref) :=
  '(st, init_block) ← execute_on_optree init_statement st;
  let '(st, _) := push_new_bb (Some tag_loop_header) st in
  loop_header_entry ← get_current_bb st;
  st ← add_to_bb loop_header_entry (Node loop_cond) st;
  '(st, _) ← execute_on_optree loop_cond st;
  st ← assert_pop_current_bb st;
  let '(st, _) := push_new_bb (Some tag_loop_body) st in
  '(st, body_bb) ← execute_on_optree loop_body st;
  st ← add_to_bb body_bb (UnconditionalBranch loop_header_entry) st;
  st ← assert_pop_current_bb st;
  let '(st, _) := push_new_bb (Some tag_loop_exit) st in
  next_bb ← get_current_bb st;
  st ← add_to_bb loop_header_entry
         (ConditionalBranch loop_cond body_bb next_bb) st;
  st ← add_to_bb init_block (UnconditionalBranch loop_header_entry) st;
  Some (st, init_block).

(** The loop of lines 739-740 over the operands of a [Statement]. *)
Fixpoint execute_all
    (execute_on_optree : optree → translator → option (translator * ref))
    (ops : list optree) (st : translator) : option translator :=
  match ops with
  | [] => Some st
  | op :: rest =>
      '(st, _) ← execute_on_optree op st;
      execute_all execute_on_optree rest st
  end.

(** [Pass_GenerateBasicBlock.execute_on_optree] *)
Fixpoint execute_on_optree (optree : optree) (st : translator)
    : option (translator * ref) :=
  entry_bb ← get_current_bb st;
  match optree with
  | ConditionBlock cond if_branch else_branch =>
      transform_cb_to_bb execute_on_optree cond if_branch else_branch st
  | Loop init_statement loop_cond loop_body =>
      transform_loop_to_bb execute_on_optree init_statement loop_cond
        loop_body st
  | Return _ =>
      st ← push_to_current_bb (Node optree) st;
      st ← set_final st;
      Some (st, entry_bb)
  | Statement ops =>
      st ← execute_all execute_on_optree ops st;
      Some (st, entry_bb)
  | Other _ =>
      st ← push_to_current_bb (Node optree) st;
      Some (st, entry_bb)
  end.

(** The state [set_top_bb_list] builds in [execute_on_function]: an empty
    block list whose entry block, tagged "main", is alone on the stack. *)
Definition initial_translator : translator :=
  mkTranslator {[0 := mkBasicBlock tag_main [] false]} [] [0] 0.

(** *** Specification *)

(** The condition under which [add_to_bb] appends, in the words of line
    698. *)
Definition may_append (b : BasicBlock) : Prop :=
  final b = false ∧
  (bb_inputs b = [] ∨
   ∃ i, last (bb_inputs b) = Some i ∧ is_ControlFlowOperation i = false).

(** The block after [add_to_bb]: the node is appended when the block may
    be appended to, and the block is unchanged otherwise. *)
Definition attach (i : instr) (b : BasicBlock) : BasicBlock :=
  if can_add b then add b i else b.

(** The lowering of one branch of a [ConditionBlock]: the current block is
    sealed, a new block is opened and the branch is lowered into it. *)
Definition lower_branch
    (exec : optree → translator → option (translator * ref))
    (branch : optree) (st : translator) : option (translator * ref) :=
  '(st, _) ← pop_current_bb true st;
  let '(st, entry) := push_new_bb None st in
  '(st, _) ← exec branch st;
  Some (st, entry).

(** What [transform_cb_to_bb] has attached when it returns [r] in [st']:
    [b_entry] is the block current on entry, [b_if] and [b_else] are the
    blocks current when the lowering of each branch ends. *)
Definition cb_result
    (exec : optree → translator → option (translator * ref))
    (cond if_branch : optree) (else_branch : option optree)
    (st st' : translator) (r : ref) : Prop :=
  ∃ b_entry st_if if_entry if_end b_if else_entry join,
    get_current_bb st = Some r ∧ blocks st !! r = Some b_entry ∧
    lower_branch exec if_branch st = Some (st_if, if_entry) ∧
    get_current_bb st_if = Some if_end ∧ blocks st_if !! if_end = Some b_if ∧
    get_current_bb st' = Some join ∧
    blocks st' !! r =
      Some (attach (ConditionalBranch cond if_entry else_entry) b_entry) ∧
    blocks st' !! if_end = Some (attach (UnconditionalBranch join) b_if) ∧
    match else_branch with
    | None => else_entry = join
    | Some e =>
        ∃ st_else else_end b_else,
          lower_branch exec e st_if = Some (st_else, else_entry) ∧
          get_current_bb st_else = Some else_end ∧
          blocks st_else !! else_end = Some b_else ∧
          blocks st' !! else_end = Some (attach (UnconditionalBranch join) b_else)
    end.

End Translator.

(** A block that lowering may touch: the block current on entry, or a
    block created since. *)
Definition allowed (st0 : translator) (top x : ref) : Prop :=
  x = top ∨ blocks st0 !! x = None.

(** The states reached from [st0] while a node is lowered: the stack below
    the block [top] current on entry is kept, and so is every other block
    of [st0]. *)
Record within (st0 st : translator) (pre new : list ref) (top : ref) : Prop := {
  w_stack0 : current_bb_stack st0 = pre ++ [top];
  w_stack : current_bb_stack st = pre ++ new;
  w_new : ∀ x, x ∈ new → allowed st0 top x;
  w_dom : ∀ b, is_Some (blocks st0 !! b) → is_Some (blocks st !! b);
  w_frame : ∀ b, is_Some (blocks st0 !! b) → b ≠ top →
            blocks st !! b = blocks st0 !! b
}.

Definition frame (st0 st : translator) (r : ref) : Prop :=
  ∃ pre top new, within st0 st pre new top ∧ new ≠ [] ∧ r = top.

End Lowering.

(** ** Example programs *)

Module Examples.

Import Dominance NodeAssignment PhiPlacement Renaming Lowering.

#[local] Existing Instance default_order.

(** *** The program of the self-test of p_gen_bb.py

    Blocks [bb_root], [bb_1], [bb_2] and [bb_3] are the objects 0 to 3, the
    variables [x] and [y] the objects 4 and 5, and [bb_list] the object
    19. *)
Definition main_heap : heap :=
  list_to_map
    [ (0, Obj KBasicBlock [8; 9; 11]);
      (1, Obj KBasicBlock [13; 14]);
      (2, Obj KBasicBlock [16; 17]);
      (3, Obj KBasicBlock [18]);
      (4, Obj KVariable []);
      (5, Obj KVariable []);
      (6, Obj KConstant []);
      (7, Obj KConstant []);
      (8, Obj KReferenceAssign [4; 6]);
      (9, Obj KReferenceAssign [5; 7]);
      (10, Obj KOperation [4; 5]);
      (11, Obj KConditionalBranch [10; 1; 2]);
      (12, Obj KConstant []);
      (13, Obj KReferenceAssign [4; 12]);
      (14, Obj KUnconditionalBranch [3]);
      (15, Obj KConstant []);
      (16, Obj KReferenceAssign [5; 15]);
      (17, Obj KUnconditionalBranch [3]);
      (18, Obj KReferenceAssign [5; 4]);
      (19, Obj KBasicBlockList [0; 1; 2; 3]) ].

Definition main_bb_list : ref := 19.

Definition main_edges : list CFGEdge :=
  [mkCFGEdge 0 1; mkCFGEdge 0 2; mkCFGEdge 1 3; mkCFGEdge 2 3].

Definition main_dominator_map : gmap ref (gset ref) :=
  {[ 0 := {[0]}; 1 := {[0; 1]}; 2 := {[0; 2]}; 3 := {[0; 3]} ]}.

Definition main_frontiers : gmap ref (gset ref) :=
  {[ 1 := {[3]}; 2 := {[3]} ]}.

Definition main_variable_list : gset ref := {[4; 5]}.

Definition main_variable_defs : gmap ref def_site :=
  {[ 4 := DefBlocks {[0; 1]}; 5 := DefBlocks {[0; 2; 3]} ]}.

(** *** A loop: 0 -> 1, 1 -> 2 or 3, 2 -> 1 *)
Definition loop_heap : heap :=
  list_to_map
    [ (0, Obj KBasicBlock [4]);
      (1, Obj KBasicBlock [5]);
      (2, Obj KBasicBlock [6]);
      (3, Obj KBasicBlock [7]);
      (4, Obj KUnconditionalBranch [1]);
      (5, Obj KConditionalBranch [8; 2; 3]);
      (6, Obj KUnconditionalBranch [1]);
      (7, Obj KOperation []);
      (8, Obj KVariable []);
      (9, Obj KBasicBlockList [0; 1; 2; 3]) ].

Definition loop_bb_list : ref := 9.

Definition loop_dominator_map : gmap ref (gset ref) :=
  {[ 0 := {[0]}; 1 := {[1]}; 2 := {[1; 2]}; 3 := {[1; 3]} ]}.

Definition loop_immediate_dominator_map : gmap ref ref :=
  {[ 2 := 1; 3 := 1 ]}.

(** *** An expression used by two blocks

    The two branch classes are the only [ControlFlowOperation] classes of
    the stores below. *)
Definition branches_only (k : kind) : bool :=
  match k with
  | KUnconditionalBranch | KConditionalBranch => true
  | _ => false
  end.

(** The sum 2 of the variable 0 and the constant 1 is an operand of the
    instruction 3 of block 10 and of the instruction 4 of block 11. *)
Definition shared_heap : heap :=
  list_to_map
    [ (0, Obj KVariable []);
      (1, Obj KConstant []);
      (2, Obj KOperation [0; 1]);
      (3, Obj KOperation [2]);
      (4, Obj KOperation [2]);
      (10, Obj KBasicBlock [3]);
      (11, Obj KBasicBlock [4]);
      (12, Obj KBasicBlockList [10; 11]) ].

Definition shared_bb_list : ref := 12.

(** The store and the dictionary after [sort_node_by_bb]: the constant 13
    and the sum 14 are the copies made for block 11. *)
Definition shared_heap_sorted : heap :=
  <[14 := Obj KOperation [0; 13]]> (<[13 := Obj KConstant []]> shared_heap).

Definition shared_bb_map : gmap ref ref :=
  {[ 0 := 11; 1 := 10; 2 := 10; 3 := 10; 4 := 11; 13 := 11; 14 := 11 ]}.

(** The state of the loop for block 11 when it pops the sum 2, which the
    loop for block 10 has assigned. *)
Definition shared_state : sort_state :=
  SortState shared_heap {[ 0 := 10; 1 := 10; 2 := 10; 3 := 10; 4 := 11 ]}
    {[2]} {[4]}.

Definition shared_state_visited : sort_state :=
  SortState shared_heap_sorted
    {[ 0 := 10; 1 := 10; 2 := 10; 3 := 10; 4 := 11; 14 := 11 ]}
    {[0; 13]} {[2; 4]}.

(** *** A use before any definition

    The instruction 2 of block 10 reads the variable 0, which no
    instruction has defined yet. *)
Definition undefined_use_heap : heap :=
  list_to_map
    [ (0, Obj KVariable []);
      (1, Obj KConstant []);
      (2, Obj KOperation [0; 1]);
      (10, Obj KBasicBlock [2]) ].

Definition undefined_use_graph : BasicBlockGraph :=
  mkBasicBlockGraph {[ 0 := 10; 1 := 10; 2 := 10 ]} {[ 10 := {[10]} ]}
    {[ 0 := DefBlocks ∅ ]}.

Definition undefined_use_reaching_def : gmap ref (option ref) :=
  {[ 0 := None ]}.

(** *** A definition that does not reach

    The variable 0 was renamed 6 by the instruction 3 of block 10; the
    instruction 2 of block 11 reads it, and block 10 does not dominate
    block 11. *)
Definition unreached_graph : BasicBlockGraph :=
  mkBasicBlockGraph {[ 2 := 11; 3 := 10 ]} {[ 10 := {[10]}; 11 := {[11]} ]}
    {[ 0 := DefBlocks {[10]}; 6 := DefOp 3 ]}.

Definition unreached_reaching_def : gmap ref (option ref) :=
  {[ 0 := Some 6; 6 := None ]}.

(** *** Two conditionals

    No node of the trees below is a [ControlFlowOperation]. *)
Definition no_control_flow : optree → bool := λ _, false.

(** [if c: a else: b], lowered from the initial state. *)
Definition if_else_lowered : translator :=
  mkTranslator
    {[ 0 := mkBasicBlock tag_main [ConditionalBranch (Other 1) 1 2] false;
       1 := mkBasicBlock (tag_bb 0) [Node (Other 2); UnconditionalBranch 3] false;
       2 := mkBasicBlock (tag_bb 1) [Node (Other 3); UnconditionalBranch 3] false;
       3 := mkBasicBlock (tag_bb 2) [] false ]}
    [0; 1; 2] [3] 3.

(** [if c: return v], lowered from the initial state. *)
Definition if_return_lowered : translator :=
  mkTranslator
    {[ 0 := mkBasicBlock tag_main [ConditionalBranch (Other 1) 1 2] false;
       1 := mkBasicBlock (tag_bb 0) [Node (Return (Other 2))] true;
       2 := mkBasicBlock (tag_bb 1) [] false ]}
    [0; 1] [2] 2.

End Examples.

(** * Properties of the embedding *)

(** ** The store *)

Module IRTheory.

Lemma new_ref_fresh (h : heap) : h !! new_ref h = None.
Proof. apply (not_elem_of_dom (D := gset ref)). unfold new_ref. apply is_fresh. Qed.

Lemma alloc_lookup_old h o h' r x :
  alloc h o = (h', r) → is_Some (h !! x) → h' !! x = h !! x.
Proof.
  intros [= <- <-] [ox Hx]. rewrite lookup_insert_ne; [done|].
  intros <-. by rewrite new_ref_fresh in Hx.
Qed.

Lemma alloc_lookup_new h o h' r :
  alloc h o = (h', r) → h !! r = None ∧ h' !! r = Some o.
Proof. intros [= <- <-]. split; [apply new_ref_fresh|apply lookup_insert_eq]. Qed.

Lemma alloc_extends h o h' r : alloc h o = (h', r) → h ⊆ h'.
Proof. intros [= <- <-]. apply insert_subseteq, new_ref_fresh. Qed.

Lemma alloc_closed h o h' r :
  alloc h o = (h', r) → closed h →
  (∀ i, i ∈ inputs o → is_Some (h !! i)) → closed h'.
Proof.
  intros Halloc Hcl Hins x ox i Hx Hi.
  destruct (alloc_lookup_new _ _ _ _ Halloc) as [Hnone Hnew].
  assert (∀ j, is_Some (h !! j) → is_Some (h' !! j)) as Hext.
  { intros j Hj. by rewrite (alloc_lookup_old _ _ _ _ _ Halloc Hj). }
  destruct (decide (x = r)) as [->|Hne].
  - rewrite Hnew in Hx. injection Hx as <-. apply Hext. by apply Hins.
  - injection Halloc as <- <-. rewrite lookup_insert_ne in Hx by done.
    apply Hext. by eapply Hcl.
Qed.

(** The two conditions on a store are decided by evaluation. *)
Lemma closedb_closed h : closedb h = true → closed h.
Proof.
  unfold closedb. intros Hb r o i Hr Hi. apply bool_decide_eq_true in Hb.
  specialize (Hb r o Hr). simpl in Hb.
  by apply (proj1 (Forall_forall _ _) Hb).
Qed.

Lemma leaves_without_inputsb_ok h :
  leaves_without_inputsb h = true → leaves_without_inputs h.
Proof.
  unfold leaves_without_inputsb. intros Hb r o Hr Hleaf.
  apply bool_decide_eq_true in Hb. by apply (Hb r o Hr).
Qed.

End IRTheory.

(** ** Dominance analysis *)

Module DominanceTheory.

Import Dominance.
Import IRTheory Examples.

Section DominanceProofs.
Context {order : IterOrder}.

(** *** The edges of the control-flow graph *)

Lemma elem_of_iter_set (s : gset ref) (x : ref) : x ∈ iter_set s ↔ x ∈ s.
Proof. rewrite iter_set_perm. apply elem_of_elements. Qed.

Lemma elem_of_iter_edges (l : list CFGEdge) (e : CFGEdge) :
  e ∈ iter_edges l ↔ e ∈ l.
Proof. by rewrite iter_edges_perm. Qed.

Lemma build_cfg_edges_loop_src h bbs acc edges :
  build_cfg_edges_loop h bbs acc = Some edges →
  ∀ e, e ∈ edges → e ∈ acc ∨ src e ∈ bbs.
Proof.
  revert acc. induction bbs as [|bb rest IH]; intros acc Hloop e He; simpl in Hloop.
  - left. congruence.
  - destruct (get_inputs h bb) as [ins|]; [|done]. simpl in Hloop.
    destruct (last ins) as [last_op|]; [|done]. simpl in Hloop.
    destruct (h !! last_op) as [o|]; [|done]. simpl in Hloop.
    destruct (kind_of o).
    all: try (destruct (IH _ Hloop e He) as [?|?]; [by left | right; by constructor]).
    + destruct (inputs o !! 0) as [d|]; [|done]. simpl in Hloop.
      destruct (IH _ Hloop e He) as [Hin|?]; [|right; by constructor].
      apply elem_of_app in Hin as [?|Hin]; [by left|].
      apply list_elem_of_singleton in Hin as ->. right. simpl. constructor.
    + destruct (inputs o !! 1) as [t|]; [|done]. simpl in Hloop.
      destruct (inputs o !! 2) as [f|]; [|done]. simpl in Hloop.
      destruct (IH _ Hloop e He) as [Hin|?]; [|right; by constructor].
      apply elem_of_app in Hin as [?|Hin]; [by left|].
      right. set_solver.
Qed.

Lemma build_cfg_edges_set_src h bb_list bbs edges :
  get_inputs h bb_list = Some bbs →
  build_cfg_edges_set h bb_list = Some edges →
  ∀ e, e ∈ edges → src e ∈ bbs.
Proof.
  intros Hbbs Hset e He. unfold build_cfg_edges_set in Hset.
  rewrite Hbbs in Hset. simpl in Hset.
  destruct (build_cfg_edges_loop_src _ _ _ _ Hset e He) as [Hin|?]; [|done].
  by apply elem_of_nil in Hin.
Qed.

(** *** The predecessor lists *)

Lemma foldl_add_predecessor l m n :
  ∀ p, p ∈ default [] (foldl add_predecessor m l !! n) ↔
       p ∈ default [] (m !! n) ∨ mkCFGEdge p n ∈ l.
Proof.
  revert m. induction l as [|[s d] l IH]; intros m p; simpl.
  - set_solver.
  - rewrite IH. unfold add_predecessor. simpl.
    destruct (decide (d = n)) as [->|Hne].
    + rewrite lookup_insert_eq. simpl. rewrite elem_of_app, list_elem_of_singleton.
      rewrite elem_of_cons. naive_solver.
    + rewrite lookup_insert_ne by done. rewrite elem_of_cons. naive_solver.
Qed.

Lemma foldl_add_predecessor_None l m n :
  foldl add_predecessor m l !! n = None ↔
  m !! n = None ∧ ∀ p, mkCFGEdge p n ∉ l.
Proof.
  revert m. induction l as [|[s d] l IH]; intros m; simpl.
  - set_solver.
  - rewrite IH. unfold add_predecessor. simpl.
    destruct (decide (d = n)) as [->|Hne].
    + rewrite lookup_insert_eq. split; [intros [? _]; done|].
      intros [_ Hno]. exfalso. apply (Hno s). by left.
    + rewrite lookup_insert_ne by done. split; intros [? Hno]; split; try done.
      * intros p Hin. apply elem_of_cons in Hin as [?|?]; [congruence|]. by apply (Hno p).
      * intros p Hin. apply (Hno p). by right.
Qed.

Lemma foldl_add_predecessor_nonempty l m n ps :
  (∀ k qs, m !! k = Some qs → qs ≠ []) →
  foldl add_predecessor m l !! n = Some ps → ps ≠ [].
Proof.
  revert m. induction l as [|[s d] l IH]; intros m Hm; simpl.
  - apply Hm.
  - apply IH. intros k qs. unfold add_predecessor. simpl.
    destruct (decide (d = k)) as [->|Hne].
    + rewrite lookup_insert_eq. intros [= <-]. by destruct (default [] (m !! k)).
    + rewrite lookup_insert_ne by done. apply Hm.
Qed.

Lemma predominance_Some edges n ps :
  build_predominance_map_list edges !! n = Some ps →
  ps ≠ [] ∧ ∀ p, p ∈ ps ↔ is_pred edges p n.
Proof.
  intros Hps. split.
  - eapply foldl_add_predecessor_nonempty; [|exact Hps]. intros k qs. by rewrite lookup_empty.
  - intros p. pose proof (foldl_add_predecessor (iter_edges edges) ∅ n p) as H.
    unfold build_predominance_map_list in Hps. rewrite Hps in H. simpl in H.
    rewrite H, lookup_empty. simpl. unfold is_pred. rewrite elem_of_iter_edges. set_solver.
Qed.

Lemma predominance_None edges n :
  build_predominance_map_list edges !! n = None ↔ ∀ p, ¬ is_pred edges p n.
Proof.
  unfold build_predominance_map_list. rewrite foldl_add_predecessor_None.
  rewrite lookup_empty. unfold is_pred. setoid_rewrite elem_of_iter_edges. naive_solver.
Qed.

(** *** One update of a dominator set *)

Lemma elem_of_foldl_intersection (s : gset ref) (rest : list (gset ref)) d :
  d ∈ foldl (∩) s rest ↔ d ∈ s ∧ ∀ s', s' ∈ rest → d ∈ s'.
Proof.
  revert s. induction rest as [|s1 rest IH]; intros s; simpl.
  - set_solver.
  - rewrite IH. set_solver.
Qed.

Lemma Forall2_lookup_sets (dm : gmap ref (gset ref)) preds sets d :
  Forall2 (λ p s, dm !! p = Some s) preds sets →
  (∀ s, s ∈ sets → d ∈ s) ↔ (∀ p, p ∈ preds → d ∈ dom_of dm p).
Proof.
  induction 1 as [|p s preds sets Hp _ IH].
  - set_solver.
  - split.
    + intros Hs q Hq. apply elem_of_cons in Hq as [->|Hq].
      * unfold dom_of. rewrite Hp. simpl. apply Hs. by left.
      * apply (proj1 IH); [|done]. intros s' Hs'. apply Hs. by right.
    + intros Hq s' Hs'. apply elem_of_cons in Hs' as [->|Hs'].
      * specialize (Hq p). unfold dom_of in Hq. rewrite Hp in Hq. apply Hq. by left.
      * apply (proj2 IH); [|done]. intros q Hq'. apply Hq. by right.
Qed.

Lemma Forall2_lookup_is_Some (dm : gmap ref (gset ref)) preds sets :
  Forall2 (λ p s, dm !! p = Some s) preds sets →
  ∀ p, p ∈ preds → is_Some (dm !! p).
Proof.
  induction 1 as [|p s preds sets Hp _ IH]; intros q Hq.
  - by apply elem_of_nil in Hq.
  - apply elem_of_cons in Hq as [->|Hq]; [by eexists|by apply IH].
Qed.

Lemma new_dom_Some dm bb preds s :
  new_dom dm bb preds = Some s →
  preds ≠ [] ∧ (∀ p, p ∈ preds → is_Some (dm !! p)) ∧
  ∀ d, d ∈ s ↔ d = bb ∨ ∀ p, p ∈ preds → d ∈ dom_of dm p.
Proof.
  unfold new_dom. intros Hnew.
  destruct (mapM _ preds) as [sets|] eqn:Hsets; simpl in Hnew; [|discriminate].
  apply mapM_Some in Hsets.
  destruct sets as [|s0 rest]; simpl in Hnew; [discriminate|]. injection Hnew as <-.
  split; [|split].
  - intros ->. inversion Hsets.
  - by eapply Forall2_lookup_is_Some.
  - intros d. rewrite <- (Forall2_lookup_sets dm preds (s0 :: rest) d Hsets).
    rewrite elem_of_union, elem_of_singleton, elem_of_foldl_intersection.
    split.
    + intros [?|[H0 Hr]]; [by left|right]. intros s' Hs'.
      apply elem_of_cons in Hs' as [->|?]; auto.
    + intros [?|Hall]; [by left|right]. split; [apply Hall; by left|].
      intros s' Hs'. apply Hall. by right.
Qed.

Lemma new_dom_is_Some dm bb preds :
  preds ≠ [] → (∀ p, p ∈ preds → is_Some (dm !! p)) →
  is_Some (new_dom dm bb preds).
Proof.
  intros Hne Hall. unfold new_dom.
  destruct (mapM (λ pred, dm !! pred) preds) as [sets|] eqn:Hsets.
  - simpl. apply mapM_Some in Hsets. destruct sets as [|s0 rest].
    + inversion Hsets; by subst.
    + simpl. by eexists.
  - exfalso. apply mapM_None in Hsets. apply Exists_exists in Hsets as (p & Hp & Hnone).
    destruct (Hall p Hp) as [? ?]. congruence.
Qed.

(** *** The iteration to the fixed point *)

Lemma Dom_trans edges a b c : Dom edges a b → Dom edges b c → Dom edges a c.
Proof.
  intros Hab Hbc. induction Hbc as [|b c Hex _ IH]; [done|].
  apply Dom_pred; [done|]. intros p Hp. by apply IH.
Qed.

Lemma elem_of_dom_of dm k d :
  d ∈ dom_of dm k ↔ ∃ s, dm !! k = Some s ∧ d ∈ s.
Proof.
  unfold dom_of. destruct (dm !! k) as [s|]; simpl.
  - naive_solver.
  - split; [set_solver|]. by intros (? & ? & ?).
Qed.

Lemma dom_of_insert dm k s j :
  dom_of (<[k := s]> dm) j = if decide (k = j) then s else dom_of dm j.
Proof. unfold dom_of. rewrite lookup_insert. by destruct (decide (k = j)). Qed.

Section FixedPoint.
Variable edges : list CFGEdge.
Variable B : gset ref.
Hypothesis edges_src : ∀ e, e ∈ edges → src e ∈ B.
Hypothesis edges_dst : ∀ e, e ∈ edges → dst e ∈ B.

(** The update of one set keeps the invariant, and the set only grows. *)
Lemma dom_inv_step dm bb preds :
  dom_inv edges B dm → build_predominance_map_list edges !! bb = Some preds →
  ∃ d old, new_dom dm bb preds = Some d ∧ dm !! bb = Some old ∧ old ⊆ d ∧
           bb ∈ B ∧ dom_inv edges B (<[bb := d]> dm).
Proof.
  intros Hinv Hpreds. apply predominance_Some in Hpreds as [Hne Hpred].
  assert (∃ p0, is_pred edges p0 bb) as [p0 Hp0].
  { destruct preds as [|p0 ?]; [done|]. exists p0. apply Hpred. by left. }
  assert (bb ∈ B) as HbbB by (apply (edges_dst _ Hp0)).
  assert (∀ p, p ∈ preds → is_Some (dm !! p)) as Hdef.
  { intros p Hp. apply (elem_of_dom (D := gset ref)). rewrite (inv_dom _ _ _ Hinv).
    apply Hpred in Hp. apply (edges_src _ Hp). }
  destruct (new_dom_is_Some dm bb preds Hne Hdef) as [d Hd].
  assert (is_Some (dm !! bb)) as [old Hold].
  { apply (elem_of_dom (D := gset ref)). by rewrite (inv_dom _ _ _ Hinv). }
  apply new_dom_Some in Hd as Hchar. destruct Hchar as (_ & _ & Hchar).
  assert (old ⊆ d) as Hsub.
  { intros x Hx. apply Hchar. destruct (inv_pre _ _ _ Hinv _ _ _ Hold Hx) as [?|Hall]; [by left|].
    right. intros p Hp. apply Hall. by apply Hpred. }
  assert (∀ j, dom_of dm j ⊆ dom_of (<[bb := d]> dm) j) as Hmono.
  { intros j. rewrite dom_of_insert. destruct (decide (bb = j)) as [<-|]; [|done].
    unfold dom_of. by rewrite Hold. }
  exists d, old. split_and!; try done.
  split.
  - rewrite dom_insert_L, (inv_dom _ _ _ Hinv). set_solver.
  - intros k s. rewrite lookup_insert. destruct (decide (bb = k)) as [<-|].
    + intros [= <-]. apply Hchar. by left.
    + apply (inv_self _ _ _ Hinv).
  - intros k s. rewrite lookup_insert. destruct (decide (bb = k)) as [<-|].
    + intros [= <-] x Hx. apply Hchar in Hx as [->|Hall]; [done|].
      specialize (Hall p0 (proj2 (Hpred p0) Hp0)).
      apply elem_of_dom_of in Hall as (sp & Hsp & Hxsp).
      by apply (inv_sub _ _ _ Hinv _ _ Hsp).
    + apply (inv_sub _ _ _ Hinv).
  - intros k s x. rewrite lookup_insert. destruct (decide (bb = k)) as [<-|].
    + intros [= <-] Hx. apply Hchar in Hx as [->|Hall]; [constructor|].
      apply Dom_pred; [by exists p0|]. intros p Hp.
      specialize (Hall p (proj2 (Hpred p) Hp)).
      apply elem_of_dom_of in Hall as (sp & Hsp & Hxsp).
      by apply (inv_sound _ _ _ Hinv _ _ _ Hsp).
    + apply (inv_sound _ _ _ Hinv).
  - intros k s. rewrite lookup_insert. destruct (decide (bb = k)) as [<-|].
    + intros _ Hno. by destruct (Hno p0).
    + apply (inv_nopred _ _ _ Hinv).
  - intros k s x. rewrite lookup_insert. destruct (decide (bb = k)) as [<-|].
    + intros [= <-] Hx. apply Hchar in Hx as [->|Hall]; [by left|right].
      intros p Hp. apply Hmono. apply Hall. by apply Hpred.
    + intros Hs Hx. destruct (inv_pre _ _ _ Hinv _ _ _ Hs Hx) as [?|Hall]; [by left|right].
      intros p Hp. apply Hmono. by apply Hall.
Qed.

(** The measure grows with the sets and is bounded by the square of the
    number of blocks. *)
Lemma sum_list_le {A} (f g : A → nat) (l : list A) :
  (∀ x, x ∈ l → f x ≤ g x) → sum_list (f <$> l) ≤ sum_list (g <$> l).
Proof.
  induction l as [|x l IH]; intros Hle; csimpl; [lia|].
  pose proof (Hle x ltac:(by left)). 
  assert (sum_list (f <$> l) ≤ sum_list (g <$> l)); [|lia].
  apply IH. intros y Hy. apply Hle. by right.
Qed.

Lemma sum_list_lt {A} (f g : A → nat) (l : list A) x0 :
  (∀ x, x ∈ l → f x ≤ g x) → x0 ∈ l → f x0 < g x0 →
  sum_list (f <$> l) < sum_list (g <$> l).
Proof.
  induction l as [|x l IH]; intros Hle Hin Hlt; csimpl.
  - by apply elem_of_nil in Hin.
  - pose proof (Hle x ltac:(by left)).
    assert (sum_list (f <$> l) ≤ sum_list (g <$> l)).
    { apply sum_list_le. intros y Hy. apply Hle. by right. }
    apply elem_of_cons in Hin as [<-|Hin]; [lia|].
    assert (sum_list (f <$> l) < sum_list (g <$> l)); [|lia].
    apply IH; [|done..]. intros y Hy. apply Hle. by right.
Qed.

Lemma sum_list_bound {A} (f : A → nat) (l : list A) n :
  (∀ x, x ∈ l → f x ≤ n) → sum_list (f <$> l) ≤ length l * n.
Proof.
  induction l as [|x l IH]; intros Hle; csimpl; [lia|].
  pose proof (Hle x ltac:(by left)).
  assert (sum_list (f <$> l) ≤ length l * n); [|lia].
  apply IH. intros y Hy. apply Hle. by right.
Qed.

Lemma total_size_mono dm dm' :
  (∀ k, dom_of dm k ⊆ dom_of dm' k) → total_size B dm ≤ total_size B dm'.
Proof.
  intros Hmono. apply sum_list_le. intros k _. by apply subseteq_size.
Qed.

Lemma total_size_strict dm dm' k0 :
  (∀ k, dom_of dm k ⊆ dom_of dm' k) → k0 ∈ B →
  dom_of dm k0 ≠ dom_of dm' k0 → total_size B dm < total_size B dm'.
Proof.
  intros Hmono Hk0 Hne. apply (sum_list_lt _ _ _ k0).
  - intros k _. by apply subseteq_size.
  - by apply elem_of_elements.
  - apply subset_size. split; [done|]. intros Hsub. apply Hne.
    apply set_eq. intros x. split; [apply Hmono|apply Hsub].
Qed.

Lemma total_size_bound dm :
  dom_inv edges B dm → total_size B dm ≤ size B * size B.
Proof.
  intros Hinv. unfold total_size.
  etrans; [apply (sum_list_bound _ _ (size B))|done].
  intros k _. apply subseteq_size. intros x Hx.
  apply elem_of_dom_of in Hx as (s & Hs & Hx).
  by apply (inv_sub _ _ _ Hinv _ _ Hs).
Qed.

(** One pass over the keys: the invariant is kept, the flag is raised only
    when the measure has grown, and a pass that leaves it down has found
    every set equal to its update. *)
Lemma dominator_pass_spec keys dm change :
  dom_inv edges B dm →
  (∀ k, k ∈ keys → is_Some (build_predominance_map_list edges !! k)) →
  ∃ dm' change',
    dominator_pass (build_predominance_map_list edges) keys dm change
      = Some (dm', change') ∧
    dom_inv edges B dm' ∧
    (∀ k, dom_of dm k ⊆ dom_of dm' k) ∧
    (change = true → change' = true) ∧
    (change' = true → change = true ∨ total_size B dm < total_size B dm') ∧
    (change' = false →
     dm' = dm ∧
     ∀ bb, bb ∈ keys →
       ∃ preds, build_predominance_map_list edges !! bb = Some preds ∧
                new_dom dm bb preds = dm !! bb).
Proof.
  revert dm change. induction keys as [|bb keys IH]; intros dm change Hinv Hkeys.
  - exists dm, change. simpl. split_and!; try done; auto.
    intros _. split; [done|]. intros bb Hbb. by apply elem_of_nil in Hbb.
  - destruct (Hkeys bb ltac:(by left)) as [preds Hpreds].
    destruct (dom_inv_step dm bb preds Hinv Hpreds)
      as (d & old & Hd & Hold & Hsub & HbbB & Hinv1).
    simpl. rewrite Hpreds. simpl. rewrite Hd. simpl. rewrite Hold. simpl.
    set (dm1 := <[bb := d]> dm) in *.
    set (change1 := if decide (d ≠ old) then true else change).
    destruct (IH dm1 change1 Hinv1 ltac:(intros; apply Hkeys; by right))
      as (dm' & change' & Hpass & Hinv' & Hmono & Hflag & Hprog & Hstop).
    assert (∀ k, dom_of dm k ⊆ dom_of dm1 k) as Hmono1.
    { intros k. unfold dm1. rewrite dom_of_insert. destruct (decide (bb = k)) as [<-|]; [|done].
      unfold dom_of. by rewrite Hold. }
    exists dm', change'. split_and!; try done.
    + intros k. etrans; [apply Hmono1|apply Hmono].
    + intros ->. apply Hflag. unfold change1. by destruct (decide (d ≠ old)).
    + intros Hc. destruct (Hprog Hc) as [Hc1|Hlt].
      * unfold change1 in Hc1. destruct (decide (d ≠ old)) as [Hne|]; [|by left].
        right. eapply Nat.lt_le_trans; [|apply (total_size_mono _ _ Hmono)].
        apply (total_size_strict dm dm1 bb Hmono1 HbbB).
        unfold dm1. rewrite dom_of_insert. rewrite decide_True by done.
        unfold dom_of. rewrite Hold. simpl. congruence.
      * right. eapply Nat.le_lt_trans; [apply (total_size_mono _ _ Hmono1)|done].
    + intros Hc. destruct (Hstop Hc) as [-> Heqs].
      assert (change1 = false) as Hc1.
      { destruct change1 eqn:E; [|done]. rewrite Hflag in Hc; done. }
      unfold change1 in Hc1. destruct (decide (d ≠ old)) as [|Heq]; [done|].
      apply dec_stable in Heq. subst d.
      assert (dm1 = dm) as Hdm1 by (unfold dm1; by apply insert_id).
      split; [done|]. intros k Hk. apply elem_of_cons in Hk as [->|Hk].
      * exists preds. split; [done|]. by rewrite Hd, Hold.
      * rewrite <- Hdm1. by apply Heqs.
Qed.

(** The [while True] loop returns within the fuel left by the measure. *)
Lemma dominator_loop_terminates fuel dm :
  dom_inv edges B dm → size B * size B < fuel + total_size B dm →
  ∃ dm',
    dominator_loop fuel (build_predominance_map_list edges) dm = Some dm' ∧
    dom_inv edges B dm' ∧
    ∀ bb preds, build_predominance_map_list edges !! bb = Some preds →
                new_dom dm' bb preds = dm' !! bb.
Proof.
  revert dm. induction fuel as [|fuel IH]; intros dm Hinv Hfuel.
  - pose proof (total_size_bound dm Hinv). lia.
  - assert (∀ k, k ∈ iter_set (dom (build_predominance_map_list edges)) →
                 is_Some (build_predominance_map_list edges !! k)) as Hkeys.
    { intros k Hk. apply elem_of_iter_set in Hk. by apply elem_of_dom in Hk. }
    destruct (dominator_pass_spec _ dm false Hinv Hkeys)
      as (dm' & change' & Hpass & Hinv' & Hmono & _ & Hprog & Hstop).
    simpl. rewrite Hpass. simpl. destruct change'.
    + apply IH; [done|]. destruct (Hprog eq_refl) as [?|?]; [done|lia].
    + destruct (Hstop eq_refl) as [-> Heqs]. exists dm. split_and!; try done.
      intros bb preds Hpreds. destruct (Heqs bb) as (preds' & Hpreds' & Heq).
      * apply elem_of_iter_set. apply elem_of_dom. by eexists.
      * congruence.
Qed.

End FixedPoint.

Lemma init_dominator_map_lookup (bbs : list ref) (m : gmap ref (gset ref)) (k : ref) :
  foldl (λ m bb, <[bb := {[bb]}]> m) m bbs !! k =
  if decide (k ∈ bbs) then Some {[k]} else m !! k.
Proof.
  revert m. induction bbs as [|bb bbs IH]; intros m; cbn [foldl].
  - destruct (decide (k ∈ [])) as [H%elem_of_nil|]; done.
  - rewrite IH. destruct (decide (k ∈ bbs)) as [Hin|Hnin].
    + rewrite decide_True; [done|]. by right.
    + rewrite lookup_insert. destruct (decide (bb = k)) as [->|Hne].
      * rewrite decide_True; [done|]. by left.
      * rewrite decide_False; [done|]. rewrite elem_of_cons. naive_solver.
Qed.

Lemma init_dominator_map_inv edges bbs :
  dom_inv edges (list_to_set bbs) (init_dominator_map bbs).
Proof.
  unfold init_dominator_map.
  assert (∀ k s, foldl (λ m bb, <[bb := {[bb]}]> m) (∅ : gmap ref (gset ref)) bbs !! k = Some s →
                 k ∈ bbs ∧ s = {[k]}) as Hlook.
  { intros k s. rewrite init_dominator_map_lookup. destruct (decide (k ∈ bbs)); [naive_solver|].
    by rewrite lookup_empty. }
  split.
  - apply set_eq. intros k. rewrite elem_of_dom, elem_of_list_to_set.
    rewrite init_dominator_map_lookup. destruct (decide (k ∈ bbs)).
    + split; [done|by eexists].
    + rewrite lookup_empty. split; [by intros [? ?]|done].
  - intros k s Hs. apply Hlook in Hs as [_ ->]. set_solver.
  - intros k s Hs. apply Hlook in Hs as [? ->]. set_solver.
  - intros k s d Hs Hd. apply Hlook in Hs as [_ ->]. apply elem_of_singleton in Hd as ->. constructor.
  - intros k s Hs _. by apply Hlook in Hs as [_ ->].
  - intros k s d Hs Hd. apply Hlook in Hs as [_ ->]. left. set_solver.
Qed.

Lemma size_list_to_set_le (l : list ref) :
  size (list_to_set l : gset ref) ≤ length l.
Proof.
  induction l as [|x l IH]; cbn [list_to_set length].
  - rewrite size_empty. lia.
  - rewrite size_union_alt, size_singleton.
    assert (size (list_to_set l ∖ {[x]} : gset ref) ≤ size (list_to_set l : gset ref)).
    { apply subseteq_size. set_solver. }
    lia.
Qed.

(** [build_dominator_map] returns a map that satisfies the invariant and
    is a fixed point of the update. *)
Lemma build_dominator_map_spec h bb_list bbs edges :
  get_inputs h bb_list = Some bbs →
  build_cfg_edges_set h bb_list = Some edges →
  (∀ e, e ∈ edges → dst e ∈ bbs) →
  ∃ dm, build_dominator_map h bb_list = Some dm ∧
        dom_inv edges (list_to_set bbs) dm ∧
        ∀ bb preds, build_predominance_map_list edges !! bb = Some preds →
                    new_dom dm bb preds = dm !! bb.
Proof.
  intros Hbbs Hedges Hdst. unfold build_dominator_map.
  rewrite Hedges, Hbbs. cbn [mbind option_bind].
  apply (dominator_loop_terminates edges (list_to_set bbs)).
  - intros e He. apply elem_of_list_to_set. by eapply build_cfg_edges_set_src.
  - intros e He. apply elem_of_list_to_set. by apply Hdst.
  - apply init_dominator_map_inv.
  - unfold dominator_fuel.
    pose proof (size_list_to_set_le bbs).
    assert (size (list_to_set bbs : gset ref) * size (list_to_set bbs : gset ref)
            ≤ length bbs * length bbs) by (by apply Nat.mul_le_mono).
    lia.
Qed.

(** C1: [build_dominator_map] returns a map in which every block [n] of
    the block list is in [dom(n)], a block without predecessor has
    [dom(n) = {n}], and a block with a predecessor has [dom(n)] equal to
    [{n}] joined with the intersection of [dom(p)] over its predecessors
    [p]; the branch targets are blocks of the list. *)
Theorem build_dominator_map_fixpoint h bb_list bbs edges :
  get_inputs h bb_list = Some bbs →
  build_cfg_edges_set h bb_list = Some edges →
  (∀ e, e ∈ edges → dst e ∈ bbs) →
  ∃ dm, build_dominator_map h bb_list = Some dm ∧
    ∀ n, n ∈ bbs →
      ∃ s, dm !! n = Some s ∧ n ∈ s ∧
        ((∀ p, ¬ is_pred edges p n) → s = {[n]}) ∧
        ((∃ p, is_pred edges p n) →
         ∀ d, d ∈ s ↔ d = n ∨ ∀ p, is_pred edges p n → d ∈ dom_of dm p).
Proof.
  intros Hbbs Hedges Hdst.
  destruct (build_dominator_map_spec h bb_list bbs edges Hbbs Hedges Hdst)
    as (dm & Hdm & Hinv & Heqs).
  exists dm. split; [done|]. intros n Hn.
  assert (is_Some (dm !! n)) as [s Hs].
  { apply (elem_of_dom (D := gset ref)). rewrite (inv_dom _ _ _ Hinv).
    by apply elem_of_list_to_set. }
  exists s. split_and!; [done|by eapply inv_self|by eapply inv_nopred|].
  intros [p0 Hp0].
  destruct (build_predominance_map_list edges !! n) as [preds|] eqn:Hpreds.
  - specialize (Heqs n preds Hpreds). rewrite Hs in Heqs.
    apply new_dom_Some in Heqs as (_ & _ & Hchar).
    apply predominance_Some in Hpreds as [_ Hpred].
    intros d. rewrite Hchar. by setoid_rewrite Hpred.
  - rewrite predominance_None in Hpreds. by destruct (Hpreds p0).
Qed.

(** *** Immediate dominators and dominance frontiers *)

Lemma dominator_pass_dom pml keys dm change dm' change' :
  dominator_pass pml keys dm change = Some (dm', change') →
  ∀ k, k ∈ keys → is_Some (dm !! k).
Proof.
  revert dm change. induction keys as [|bb keys IH]; intros dm change Hpass k Hk.
  - by apply elem_of_nil in Hk.
  - simpl in Hpass.
    destruct (pml !! bb) as [preds|]; [|done]. simpl in Hpass.
    destruct (new_dom dm bb preds) as [d|]; [|done]. simpl in Hpass.
    destruct (dm !! bb) as [old|] eqn:Hold; [|done]. simpl in Hpass.
    apply elem_of_cons in Hk as [->|Hk]; [by eexists|].
    specialize (IH _ _ Hpass k Hk). rewrite lookup_insert in IH.
    destruct (decide (bb = k)) as [<-|]; [by eexists|done].
Qed.

Lemma dominator_loop_keys fuel pml dm dm' :
  dominator_loop fuel pml dm = Some dm' →
  ∀ k, is_Some (pml !! k) → is_Some (dm !! k).
Proof.
  destruct fuel as [|fuel]; [done|]. simpl. intros Hloop k Hk.
  destruct (dominator_pass pml _ dm false) as [[dm1 c]|] eqn:Hpass; [|done].
  eapply dominator_pass_dom; [exact Hpass|].
  apply elem_of_iter_set. by apply elem_of_dom.
Qed.

Lemma build_dominator_map_dst h bb_list bbs edges dm :
  get_inputs h bb_list = Some bbs →
  build_cfg_edges_set h bb_list = Some edges →
  build_dominator_map h bb_list = Some dm →
  ∀ e, e ∈ edges → dst e ∈ bbs.
Proof.
  intros Hbbs Hedges Hdm [s d] He. simpl. unfold build_dominator_map in Hdm.
  rewrite Hedges, Hbbs in Hdm. cbn [mbind option_bind] in Hdm.
  assert (is_Some (build_predominance_map_list edges !! d)) as Hd.
  { destruct (build_predominance_map_list edges !! d) eqn:E; [by eexists|].
    rewrite predominance_None in E. by destruct (E s). }
  pose proof (dominator_loop_keys _ _ _ _ Hdm d Hd) as Hin.
  apply (elem_of_dom (D := gset ref)) in Hin.
  rewrite (inv_dom _ _ _ (init_dominator_map_inv edges bbs)) in Hin.
  by apply elem_of_list_to_set in Hin.
Qed.

(** The computed sets are the least solution of the equations. *)
Lemma dominator_map_complete edges B dm :
  (∀ e, e ∈ edges → src e ∈ B) →
  dom_inv edges B dm →
  (∀ bb preds, build_predominance_map_list edges !! bb = Some preds →
               new_dom dm bb preds = dm !! bb) →
  ∀ d n, Dom edges d n → n ∈ B → d ∈ dom_of dm n.
Proof.
  intros Hsrc Hinv Heqs d n HDom. induction HDom as [n|d n [p0 Hp0] _ IH]; intros Hn.
  - rewrite <- (inv_dom _ _ _ Hinv) in Hn. apply elem_of_dom in Hn as [s Hs].
    apply elem_of_dom_of. exists s. split; [done|].
    by eapply inv_self.
  - destruct (build_predominance_map_list edges !! n) as [preds|] eqn:Hpreds.
    + specialize (Heqs n preds Hpreds).
      destruct (dm !! n) as [s|] eqn:Hs.
      * apply new_dom_Some in Heqs as (_ & _ & Hchar).
        apply predominance_Some in Hpreds as [_ Hpred].
        apply elem_of_dom_of. exists s. split; [done|]. apply Hchar. right.
        intros p Hp. apply Hpred in Hp. apply IH; [done|]. apply (Hsrc _ Hp).
      * apply (not_elem_of_dom (D := gset ref)) in Hs.
        by rewrite (inv_dom _ _ _ Hinv) in Hs.
    + rewrite predominance_None in Hpreds. by destruct (Hpreds p0).
Qed.

(** Hence membership in the computed sets is transitive. *)
Lemma dominator_map_trans edges B dm a b c :
  (∀ e, e ∈ edges → src e ∈ B) →
  dom_inv edges B dm →
  (∀ bb preds, build_predominance_map_list edges !! bb = Some preds →
               new_dom dm bb preds = dm !! bb) →
  a ∈ dom_of dm b → b ∈ dom_of dm c → a ∈ dom_of dm c.
Proof.
  intros Hsrc Hinv Heqs Hab Hbc.
  apply elem_of_dom_of in Hab as (sb & Hsb & Hab).
  apply elem_of_dom_of in Hbc as (sc & Hsc & Hbc).
  apply (dominator_map_complete edges B dm Hsrc Hinv Heqs).
  - apply (Dom_trans edges a b c).
    + apply (inv_sound _ _ _ Hinv _ _ _ Hsb Hab).
    + apply (inv_sound _ _ _ Hinv _ _ _ Hsc Hbc).
  - rewrite <- (inv_dom _ _ _ Hinv). apply elem_of_dom. by eexists.
Qed.

Lemma find_imm_dom_Some dm bb all doms d :
  find_imm_dom dm bb all doms = Some (Some d) → d ∈ doms ∧ d ≠ bb.
Proof.
  induction doms as [|x doms IH]; simpl; [done|].
  destruct (decide (x = bb)) as [->|Hne].
  - intros H. destruct (IH H). split; [by right|done].
  - destruct (is_imm_loop dm bb x all) as [[]|]; simpl; [| |done].
    + intros [= ->]. split; [by left|done].
    + intros H. destruct (IH H). split; [by right|done].
Qed.

Lemma build_immediate_dominator_loop_ok dm bbs acc idom :
  build_immediate_dominator_loop dm bbs acc = Some idom →
  idom_ok dm acc → idom_ok dm idom.
Proof.
  revert acc. induction bbs as [|bb bbs IH]; intros acc; simpl.
  - by intros [= ->].
  - destruct (dm !! bb) as [s|] eqn:Hs; [|done]. simpl.
    destruct (find_imm_dom dm bb (iter_set s) (iter_set s)) as [found|] eqn:Hf; [|done]. simpl.
    intros Hloop Hacc. apply (IH _ Hloop).
    destruct found as [d|]; [|done].
    apply find_imm_dom_Some in Hf as [Hd Hne]. apply elem_of_iter_set in Hd.
    intros b d'. rewrite lookup_insert. destruct (decide (bb = b)) as [<-|]; [|apply Hacc].
    intros [= <-]. split; [|done]. apply elem_of_dom_of. by exists s.
Qed.

Lemma build_immediate_dominator_map_ok dm bbs idom :
  build_immediate_dominator_map dm bbs = Some idom → idom_ok dm idom.
Proof.
  intros H. eapply build_immediate_dominator_loop_ok; [exact H|].
  intros b d. by rewrite lookup_empty.
Qed.

Lemma does_not_strictly_dominate_true dm x y :
  does_not_strictly_dominate dm x y = Some true → x = y ∨ x ∉ dom_of dm y.
Proof.
  unfold does_not_strictly_dominate. destruct (decide (x = y)); [by left|].
  destruct (dm !! y) as [s|] eqn:Hs; simpl; [|done].
  destruct (decide (x ∈ s)); [done|]. intros _. right.
  unfold dom_of. by rewrite Hs.
Qed.

Lemma elem_of_frontier_add df x d a y :
  y ∈ dom_of (frontier_add df x d) a ↔ y ∈ dom_of df a ∨ (a = x ∧ y = d).
Proof.
  unfold frontier_add. rewrite dom_of_insert. destruct (decide (x = a)) as [<-|].
  - fold (dom_of df x). set_solver.
  - naive_solver.
Qed.

(** The walk for one edge keeps the frontier sound, as long as [x]
    dominates the source of the edge. *)
Lemma frontier_walk_ok edges dm io p fuel x d df df' :
  (∀ a b c, a ∈ dom_of dm b → b ∈ dom_of dm c → a ∈ dom_of dm c) →
  (∀ idom, io = Some idom → idom_ok dm idom) →
  is_pred edges p d →
  frontier_walk fuel (Some dm) io x d df = Some df' →
  x ∈ dom_of dm p → frontier_ok edges dm df → frontier_ok edges dm df'.
Proof.
  intros Htrans Hio Hp. revert x df.
  induction fuel as [|fuel IH]; intros x df; simpl; [done|].
  destruct (does_not_strictly_dominate dm x d) as [[]|] eqn:Hcond; simpl; [| |done].
  - destruct io as [idom|]; simpl; [|done].
    destruct (idom !! x) as [x'|] eqn:Hx'; simpl; [|done].
    intros Hwalk Hx Hdf. apply (IH _ _ Hwalk).
    + destruct (Hio idom eq_refl x x' Hx') as [Hd _]. by eapply Htrans.
    + intros a y Hy. apply elem_of_frontier_add in Hy as [Hy|[-> ->]]; [by apply Hdf|].
      split; [by exists p|]. by apply does_not_strictly_dominate_true.
  - by intros [= ->].
Qed.

Lemma frontier_edges_ok edges dm io fuel es df df' :
  (∀ a b c, a ∈ dom_of dm b → b ∈ dom_of dm c → a ∈ dom_of dm c) →
  (∀ idom, io = Some idom → idom_ok dm idom) →
  (∀ e, e ∈ es → e ∈ edges ∧ src e ∈ dom_of dm (src e)) →
  frontier_edges fuel (Some dm) io es df = Some df' →
  frontier_ok edges dm df → frontier_ok edges dm df'.
Proof.
  intros Htrans Hio. revert df. induction es as [|[s d] es IH]; intros df Hes; simpl.
  - by intros [= ->].
  - destruct (frontier_walk fuel (Some dm) io s d df) as [df1|] eqn:Hwalk; simpl; [|done].
    intros Hrest Hdf. apply (IH df1); [intros; apply Hes; by right|done|].
    destruct (Hes (mkCFGEdge s d) ltac:(by left)) as [Hin Hself].
    by eapply (frontier_walk_ok edges dm io s).
Qed.

(** C2: when [get_dominance_frontiers] returns, every [y] in the frontier
    of [x] has a predecessor [p] with [x] in [dom(p)], and [x] is [y] or is
    not in [dom(y)]. *)
Theorem dominance_frontier_sound fuel h bb_list edges dm df :
  build_cfg_edges_set h bb_list = Some edges →
  build_dominator_map h bb_list = Some dm →
  get_dominance_frontiers fuel h bb_list = Some df →
  ∀ x y, y ∈ dom_of df x →
    (∃ p, is_pred edges p y ∧ x ∈ dom_of dm p) ∧ (x = y ∨ x ∉ dom_of dm y).
Proof.
  intros Hedges Hdm Hdf. unfold get_dominance_frontiers in Hdf.
  rewrite Hedges in Hdf. cbn [mbind option_bind] in Hdf.
  destruct (get_inputs h bb_list) as [bbs|] eqn:Hbbs; [|done].
  cbn [mbind option_bind] in Hdf. rewrite Hdm in Hdf. cbn [mbind option_bind] in Hdf.
  pose proof (build_dominator_map_dst _ _ _ _ _ Hbbs Hedges Hdm) as Hdst.
  destruct (build_dominator_map_spec h bb_list bbs edges Hbbs Hedges Hdst)
    as (dm' & Hdm' & Hinv & Heqs).
  assert (dm' = dm) as -> by congruence.
  assert (∀ e, e ∈ edges → src e ∈ (list_to_set bbs : gset ref)) as Hsrc.
  { intros e He. apply elem_of_list_to_set. by eapply build_cfg_edges_set_src. }
  eapply (frontier_edges_ok edges dm); [| | |exact Hdf|].
  - intros a b c. by eapply dominator_map_trans.
  - intros idom Hidom. cbn [mbind option_bind] in Hidom.
    by eapply build_immediate_dominator_map_ok.
  - intros e He. apply (proj1 (elem_of_iter_edges _ _)) in He. split; [done|].
    specialize (Hsrc e He). rewrite <- (inv_dom _ _ _ Hinv) in Hsrc.
    apply elem_of_dom in Hsrc as [s Hs]. apply elem_of_dom_of. exists s.
    split; [done|]. by eapply inv_self.
  - intros x y Hy. apply elem_of_dom_of in Hy as (s & Hs & _). by rewrite lookup_empty in Hs.
Qed.

(** C4, as the code has it: at the step of the walk where [x] is the
    destination [d], the test of the [while] holds, [d] is added to the
    frontier of [d] and the walk goes on from the immediate dominator of
    [d] (and raises when there is none); the walk stops only at an [x]
    other than [d] that is in [dom(d)]. *)
Theorem frontier_walk_at_destination fuel dm idom d df :
  does_not_strictly_dominate dm d d = Some true ∧
  d ∈ dom_of (frontier_walk_body idom d d df).1 d ∧
  frontier_walk (S fuel) (Some dm) (Some idom) d d df =
    (x' ← idom !! d;
     frontier_walk fuel (Some dm) (Some idom) x' d (frontier_add df d d)) ∧
  ∀ x, does_not_strictly_dominate dm x d = Some false ↔
       x ≠ d ∧ ∃ s, dm !! d = Some s ∧ x ∈ s.
Proof.
  assert (does_not_strictly_dominate dm d d = Some true) as Hcond.
  { unfold does_not_strictly_dominate. by rewrite decide_True. }
  split_and!; [done| | |].
  - simpl. apply elem_of_frontier_add. by right.
  - simpl. by rewrite Hcond.
  - intros x. unfold does_not_strictly_dominate.
    destruct (decide (x = d)) as [->|Hne]; [naive_solver|].
    destruct (dm !! d) as [s|] eqn:Hs; simpl; [|naive_solver].
    destruct (decide (x ∈ s)); naive_solver.
Qed.

End DominanceProofs.

(** *** The self-test program and a loop *)

#[local] Existing Instance default_order.

Lemma build_dominator_map_fixpoint_witness :
  ∃ dm, build_dominator_map main_heap main_bb_list = Some dm ∧
    ∀ n, n ∈ [0; 1; 2; 3] →
      ∃ s, dm !! n = Some s ∧ n ∈ s ∧
        ((∀ p, ¬ is_pred main_edges p n) → s = {[n]}) ∧
        ((∃ p, is_pred main_edges p n) →
         ∀ d, d ∈ s ↔ d = n ∨ ∀ p, is_pred main_edges p n → d ∈ dom_of dm p).
Proof.
  apply (build_dominator_map_fixpoint main_heap main_bb_list [0; 1; 2; 3]
           main_edges).
  - vm_compute; reflexivity.
  - vm_compute; reflexivity.
  - apply (proj1 (Forall_forall _ _)). repeat constructor.
Defined.

Lemma dominance_frontier_sound_witness :
  get_dominance_frontiers 4 main_heap main_bb_list = Some main_frontiers ∧
  ∀ x y, y ∈ dom_of main_frontiers x →
    (∃ p, is_pred main_edges p y ∧ x ∈ dom_of main_dominator_map p) ∧
    (x = y ∨ x ∉ dom_of main_dominator_map y).
Proof.
  split; [vm_compute; reflexivity|].
  apply (dominance_frontier_sound 4 main_heap main_bb_list main_edges
           main_dominator_map main_frontiers); vm_compute; reflexivity.
Defined.

(** On the loop, the walk for the back edge from 2 to 1 reaches [x = 1]
    with the frontier [{2: {1}}]: the test of the [while] holds, 1 is added
    to its own frontier, and the next [x] is looked up (block 1 has no
    immediate dominator in the computed map, so the lookup raises). *)
Lemma frontier_walk_at_destination_counterexample :
  build_dominator_map loop_heap loop_bb_list = Some loop_dominator_map ∧
  build_immediate_dominator_map loop_dominator_map [0; 1; 2; 3]
    = Some loop_immediate_dominator_map ∧
  does_not_strictly_dominate loop_dominator_map 1 1 = Some true ∧
  frontier_walk_body loop_immediate_dominator_map 1 1 {[ 2 := {[1]} ]}
    = ({[ 1 := {[1]}; 2 := {[1]} ]}, None) ∧
  frontier_walk 3 (Some loop_dominator_map) (Some loop_immediate_dominator_map)
    2 1 ∅ = None.
Proof. split_and!; vm_compute; reflexivity. Qed.

End DominanceTheory.

(** ** Assignment of the nodes to the blocks *)

Module NodeAssignmentTheory.

Import NodeAssignment.
Import IRTheory Examples.

Section AssignmentProofs.
Context {order : IterOrder}.
Variable is_cfo : kind → bool.

(** *** The store only grows *)

Lemma copy_inputs_extends rec ops h cm acc h' cm' ins :
  (∀ h cm n h' cm' c, rec h cm n = Some (h', cm', c) → h ⊆ h') →
  copy_inputs rec ops h cm acc = Some (h', cm', ins) → h ⊆ h'.
Proof.
  intros Hrec. revert h cm acc. induction ops as [|op ops IH]; intros h cm acc; simpl.
  - by intros [= -> _ _].
  - destruct (rec h cm op) as [[[h1 cm1] c]|] eqn:Hop; simpl; [|done].
    intros Hrest. etrans; [by eapply Hrec|by eapply IH].
Qed.

Lemma copy_extends fuel h cm n h' cm' c :
  copy fuel h cm n = Some (h', cm', c) → h ⊆ h'.
Proof.
  revert h cm n h' cm' c. induction fuel as [|fuel IH]; intros h cm n h' cm' c; simpl; [done|].
  destruct (cm !! n); [by intros [= -> _ _]|].
  destruct (h !! n) as [o|]; simpl; [|done].
  destruct (copy_inputs (copy fuel) (inputs o) h cm []) as [[[h1 cm1] ins]|] eqn:Hins;
    simpl; [|done].
  intros [= <- _ _]. etrans; [by eapply copy_inputs_extends|].
  apply insert_subseteq, new_ref_fresh.
Qed.

Lemma copy_up_to_variables_extends fuel h node h' c :
  copy_up_to_variables fuel h node = Some (h', c) → h ⊆ h'.
Proof.
  unfold copy_up_to_variables.
  destruct (get_recursive_op_graph_vars fuel h ∅ node) as [[vars memo]|]; simpl; [|done].
  destruct (copy fuel h (identity_map vars) node) as [[[h1 cm1] c1]|] eqn:Hcopy; simpl; [|done].
  intros [= <- _]. by eapply copy_extends.
Qed.

Lemma resolve_conflict_extends fuel h node h' c :
  resolve_conflict fuel h node = Some (h', c) → h ⊆ h'.
Proof.
  unfold resolve_conflict. destruct (h !! node) as [o|]; simpl; [|done].
  destruct (kind_of o); try apply copy_up_to_variables_extends.
  - by intros [= -> _].
  - destruct (copy fuel h ∅ node) as [[[h1 cm1] c1]|] eqn:Hcopy; simpl; [|done].
    intros [= <- _]. by eapply copy_extends.
Qed.

Lemma sort_visit_extends fuel bb st node st' :
  sort_visit is_cfo fuel bb st node = Some st' → s_heap st ⊆ s_heap st'.
Proof.
  unfold sort_visit. destruct (decide (node ∈ processed_nodes st)); [by intros [= <-]|].
  destruct (match s_bb_map st !! node with
            | Some bb0 => if decide (bb0 ≠ bb) then resolve_conflict fuel (s_heap st) node
                          else Some (s_heap st, node)
            | None => Some (s_heap st, node) end) as [[h' node']|] eqn:Hres; simpl; [|done].
  destruct (h' !! node') as [o|]; simpl; [|done].
  destruct (operands_to_visit is_cfo o); simpl; [|done].
  intros [= <-]. simpl.
  destruct (s_bb_map st !! node) as [bb0|]; [|by injection Hres as <- _].
  destruct (decide (bb0 ≠ bb)); [by eapply resolve_conflict_extends|by injection Hres as <- _].
Qed.

Lemma sort_while_extends steps fuel bb st st' :
  sort_while is_cfo steps fuel bb st = Some st' → s_heap st ⊆ s_heap st'.
Proof.
  revert st. induction steps as [|steps IH]; intros st; simpl; [done|].
  destruct (iter_set (working_set st)) as [|node rest]; [by intros [= ->]|].
  destruct (sort_visit is_cfo fuel bb st node) as [st1|] eqn:Hvisit; simpl; [|done].
  intros Hrest. etrans; [by eapply sort_visit_extends|by apply IH].
Qed.

Lemma sort_blocks_extends fuel bbs h bb_map h' bb_map' :
  sort_blocks is_cfo fuel bbs h bb_map = Some (h', bb_map') → h ⊆ h'.
Proof.
  revert h bb_map. induction bbs as [|bb bbs IH]; intros h bb_map; simpl.
  - by intros [= -> _].
  - destruct (get_inputs h bb) as [ins|]; simpl; [|done].
    destruct (sort_while is_cfo fuel fuel bb _) as [st|] eqn:Hwhile; simpl; [|done].
    intros Hrest. etrans; [|by eapply IH].
    by apply sort_while_extends in Hwhile.
Qed.

(** C9: [sort_node_by_bb] leaves every object of the store as it was, the
    instructions of the blocks and the operands of the nodes included; the
    copies it makes are new objects, and no object that was there has a
    copy among its operands. *)
Theorem sort_node_by_bb_frame fuel h bb_list h' bb_map :
  sort_node_by_bb is_cfo fuel h bb_list = Some (h', bb_map) →
  (∀ r o, h !! r = Some o → h' !! r = Some o) ∧
  (closed h →
   ∀ r o i, is_Some (h !! r) → h' !! r = Some o → i ∈ inputs o → is_Some (h !! i)).
Proof.
  unfold sort_node_by_bb. destruct (get_inputs h bb_list) as [bbs|]; simpl; [|done].
  intros Hsort. apply sort_blocks_extends in Hsort.
  split.
  - intros r o Hr. by eapply lookup_weaken.
  - intros Hcl r o i [o0 Hr] Hr' Hi.
    pose proof (lookup_weaken _ _ _ _ Hr Hsort) as Hr''.
    assert (o0 = o) as -> by congruence. by eapply Hcl.
Qed.

(** *** The copy made on a conflict *)

Lemma copy_of_weaken h h' h'' :
  h' ⊆ h'' → ∀ n c, copy_of h h' n c → copy_of h h'' n c.
Proof.
  intros Hsub. fix IH 3. intros n c [v Hv|n0 c0 o ins Hn Hk Hc Hc' Hins].
  - by constructor.
  - eapply copy_fresh; [done..|by eapply lookup_weaken|].
    revert Hins. generalize (inputs o) ins. fix IHl 3.
    intros l1 l2 [|x y l1' l2' Hxy Hl]; constructor.
    + by apply IH.
    + by apply IHl.
Qed.

Lemma reach_trans h a b c : reach h a b → reach h b c → reach h a c.
Proof. induction 1; [done|]. intros. eapply reach_step; eauto. Qed.

Lemma reach_closed h a b : closed h → is_Some (h !! a) → reach h a b → is_Some (h !! b).
Proof.
  intros Hcl Ha Hr. induction Hr as [|n o i m Hn Hi _ IH]; [done|].
  apply IH. by eapply Hcl.
Qed.

Section Visit.
Variable h : heap.
Hypothesis h_leaves : leaves_without_inputs h.

(** What [get_recursive_op_graph_vars] collects. *)
Lemma vars_of_inputs_post rec ops m acc r m' :
  (∀ m n r m', rec m n = Some (r, m') → visit_post h m r m' ∧ is_Some (m' !! n)) →
  vars_of_inputs rec ops m acc = Some (r, m') →
  acc ⊆ r ∧
  (∀ k, is_Some (m !! k) → is_Some (m' !! k)) ∧
  (∀ i, i ∈ ops → is_Some (m' !! i)) ∧
  (∀ k, is_Some (m' !! k) → m !! k = None → is_Variable h k → k ∈ r) ∧
  (∀ k o i, is_Some (m' !! k) → m !! k = None → h !! k = Some o →
            i ∈ inputs o → is_Some (m' !! i)) ∧
  ((∀ v, v ∈ acc → is_Variable h v) →
   (∀ k s v, m !! k = Some s → v ∈ s → is_Variable h v) →
   (∀ v, v ∈ r → is_Variable h v) ∧
   (∀ k s v, m' !! k = Some s → v ∈ s → is_Variable h v)).
Proof.
  intros Hrec. revert m acc. induction ops as [|op ops IH]; intros m acc; simpl.
  - intros [= <- <-]. split_and!; try done.
    + intros i Hi. by apply elem_of_nil in Hi.
    + intros k [? Hk] Hn. congruence.
    + intros k o i [? Hk] Hn. congruence.
  - destruct (rec m op) as [[vars m1]|] eqn:Hop; simpl; [|done].
    intros Hrest.
    destruct (Hrec _ _ _ _ Hop) as [(Hmono1 & Hvars1 & Hins1 & Hsound1) Hop1].
    destruct (IH _ _ Hrest) as (Hacc & Hmono & Hall & Hvars & Hins & Hsound).
    split_and!.
    + set_solver.
    + intros k Hk. by apply Hmono, Hmono1.
    + intros i Hi. apply elem_of_cons in Hi as [->|Hi]; [by apply Hmono|by apply Hall].
    + intros k Hk Hnone Hvar. destruct (m1 !! k) as [s|] eqn:Hk1.
      * apply Hacc. apply elem_of_union_r. apply Hvars1; [by eexists|done..].
      * by apply Hvars.
    + intros k o i Hk Hnone Ho Hi. destruct (m1 !! k) as [s|] eqn:Hk1.
      * apply Hmono. eapply Hins1; [by eexists|done..].
      * by eapply Hins.
    + intros Hacc_ok Hm_ok. destruct (Hsound1 Hm_ok) as [Hv1 Hm1].
      apply Hsound; [|done]. intros v Hv. apply elem_of_union in Hv as [?|?]; auto.
Qed.

Lemma get_recursive_op_graph_vars_post fuel m n r m' :
  get_recursive_op_graph_vars fuel h m n = Some (r, m') →
  visit_post h m r m' ∧ is_Some (m' !! n).
Proof.
  revert m n r m'. induction fuel as [|fuel IH]; intros m n r m'; simpl; [done|].
  destruct (m !! n) as [s|] eqn:Hmn.
  { intros [= <- <-]. split; [|by eexists]. split_and!; try done.
    - intros k [? Hk] Hnone. congruence.
    - intros k o i [? Hk] Hnone. congruence.
    - intros Hok. split; [|done]. intros v Hv. by eapply Hok. }
  destruct (h !! n) as [o|] eqn:Hn; simpl; [|done].
  assert (∀ (s : gset ref) k, is_Some ((<[n := s]> m) !! k) → m !! k = None → k = n) as Hnew.
  { intros s k Hk Hnone. rewrite lookup_insert in Hk.
    destruct (decide (n = k)); [done|]. rewrite Hnone in Hk. by destruct Hk. }
  destruct (decide (kind_of o = KVariable)) as [Hvar|Hnvar].
  { intros [= <- <-]. split; [|by rewrite lookup_insert_eq]. split_and!.
    - intros k Hk. rewrite lookup_insert. by destruct (decide (n = k)).
    - intros k Hk Hnone _. apply (Hnew _ _ Hk) in Hnone as ->. set_solver.
    - intros k o' i Hk Hnone Ho' Hi. apply (Hnew _ _ Hk) in Hnone as ->.
      assert (o' = o) as -> by congruence.
      rewrite (h_leaves n o Hn) in Hi; [by apply elem_of_nil in Hi|].
      by rewrite Hvar.
    - intros Hok. split.
      + intros v Hv. apply elem_of_singleton in Hv as ->. by exists o.
      + intros k s v. rewrite lookup_insert. destruct (decide (n = k)) as [<-|].
        * intros [= <-] Hv. apply elem_of_singleton in Hv as ->. by exists o.
        * apply Hok. }
  destruct (is_ML_LeafNode (kind_of o)) eqn:Hleaf.
  { intros [= <- <-]. split; [|by rewrite lookup_insert_eq]. split_and!.
    - intros k Hk. rewrite lookup_insert. by destruct (decide (n = k)).
    - intros k Hk Hnone [o' [Ho' Hk']]. apply (Hnew _ _ Hk) in Hnone as ->. congruence.
    - intros k o' i Hk Hnone Ho' Hi. apply (Hnew _ _ Hk) in Hnone as ->.
      assert (o' = o) as -> by congruence.
      rewrite (h_leaves n o Hn Hleaf) in Hi. by apply elem_of_nil in Hi.
    - intros Hok. split; [set_solver|].
      intros k s v. rewrite lookup_insert. destruct (decide (n = k)) as [<-|].
      * intros [= <-] Hv. set_solver.
      * apply Hok. }
  destruct (vars_of_inputs _ (inputs o) (<[n := ∅]> m) ∅) as [[res memo]|] eqn:Hins;
    simpl; [|done].
  intros [= <- <-].
  destruct (vars_of_inputs_post _ _ _ _ _ _ (IH) Hins)
    as (_ & Hmono & Hall & Hvars & Hinputs & Hsound).
  split; [|by rewrite lookup_insert_eq].
  assert (∀ k, is_Some (<[n := res]> memo !! k) ↔ is_Some (memo !! k)) as Hdom.
  { intros k. rewrite lookup_insert. destruct (decide (n = k)) as [<-|]; [|done].
    split; [intros _|by eexists]. apply Hmono. by rewrite lookup_insert_eq. }
  split_and!.
  - intros k Hk. apply Hdom, Hmono. rewrite lookup_insert. by destruct (decide (n = k)).
  - intros k Hk Hnone Hvar. apply Hdom in Hk.
    destruct (decide (k = n)) as [->|Hne].
    + destruct Hvar as [o' [Ho' Hk']]. congruence.
    + apply Hvars; [done| |done]. by rewrite lookup_insert_ne.
  - intros k o' i Hk Hnone Ho' Hi. apply Hdom in Hk. apply Hdom.
    destruct (decide (k = n)) as [->|Hne].
    + assert (o' = o) as -> by congruence. by apply Hall.
    + eapply Hinputs; [done| |done..]. by rewrite lookup_insert_ne.
  - intros Hok.
    destruct Hsound as [Hres Hmemo]; [set_solver| |].
    { intros k s v. rewrite lookup_insert. destruct (decide (n = k)) as [<-|].
      - intros [= <-] Hv. set_solver.
      - apply Hok. }
    split; [done|]. intros k s v. rewrite lookup_insert.
    destruct (decide (n = k)) as [<-|]; [|apply Hmemo].
    intros [= <-]. apply Hres.
Qed.

(** At the top level the result holds every variable below the node. *)
Lemma get_recursive_op_graph_vars_complete fuel n r m' :
  get_recursive_op_graph_vars fuel h ∅ n = Some (r, m') →
  (∀ v, v ∈ r → is_Variable h v) ∧
  (∀ v, reach h n v → is_Variable h v → v ∈ r).
Proof.
  intros Hvars.
  destruct (get_recursive_op_graph_vars_post _ _ _ _ _ Hvars)
    as [(_ & Hvar & Hins & Hsound) Hn].
  split.
  - apply Hsound. intros k s v. by rewrite lookup_empty.
  - assert (∀ a b, reach h a b → is_Some (m' !! a) → is_Some (m' !! b)) as Hvisited.
    { intros a b Hreach. induction Hreach as [|a o i b Ha Hi _ IH]; [done|].
      intros Hsa. apply IH. eapply Hins; [done|apply lookup_empty|done..]. }
    intros v Hreach Hisvar. apply Hvar; [by eapply Hvisited|apply lookup_empty|done].
Qed.

End Visit.

Section Copy.
Variable h : heap.
Variable top : ref.
Variable var_list : gset ref.
Hypothesis h_closed : closed h.
Hypothesis h_top : is_Some (h !! top).
Hypothesis var_list_complete :
  ∀ v, reach h top v → is_Variable h v → v ∈ var_list.

(** What the copy builds. *)
Lemma memo_ok_weaken h' h'' cm :
  h' ⊆ h'' → memo_ok h var_list h' cm → memo_ok h var_list h'' cm.
Proof.
  intros Hsub [Hcopies Hvars]. split; [|done].
  intros k c Hk. eapply copy_of_weaken; [done|by apply Hcopies].
Qed.

Lemma copy_inputs_post rec ops h1 cm acc h2 cm2 ins :
  (∀ h1 cm n h2 cm2 c,
     h ⊆ h1 → memo_ok h var_list h1 cm → reach h top n →
     rec h1 cm n = Some (h2, cm2, c) → copy_post h var_list h1 n h2 cm2 c) →
  h ⊆ h1 → memo_ok h var_list h1 cm → (∀ i, i ∈ ops → reach h top i) →
  copy_inputs rec ops h1 cm acc = Some (h2, cm2, ins) →
  h1 ⊆ h2 ∧ memo_ok h var_list h2 cm2 ∧
  ∃ cs, ins = acc ++ cs ∧ Forall2 (copy_of h h2) ops cs.
Proof.
  intros Hrec. revert h1 cm acc.
  induction ops as [|op ops IH]; intros h1 cm acc Hsub Hok Hreach; simpl.
  - intros [= <- <- <-]. split_and!; [done..|]. exists []. by rewrite app_nil_r.
  - destruct (rec h1 cm op) as [[[h1' cm1] c]|] eqn:Hop; simpl; [|done].
    intros Hrest.
    destruct (Hrec _ _ _ _ _ _ Hsub Hok (Hreach op ltac:(by left)) Hop)
      as (Hsub1 & Hok1 & Hc).
    destruct (IH h1' cm1 (acc ++ [c]) ltac:(by etrans) Hok1
                ltac:(intros; apply Hreach; by right) Hrest)
      as (Hsub2 & Hok2 & cs & -> & Hcs).
    split_and!; [by etrans|done|]. exists (c :: cs). split.
    + by rewrite <- app_assoc.
    + constructor; [|done]. by eapply copy_of_weaken.
Qed.

(** The copy of a node reached from [top] is a copy up to the variables
    of [var_list]. *)
Lemma copy_spec fuel h1 cm n h2 cm2 c :
  h ⊆ h1 → memo_ok h var_list h1 cm → reach h top n →
  copy fuel h1 cm n = Some (h2, cm2, c) → copy_post h var_list h1 n h2 cm2 c.
Proof.
  revert h1 cm n h2 cm2 c. induction fuel as [|fuel IH];
    intros h1 cm n h2 cm2 c Hsub Hok Hreach; simpl; [done|].
  destruct (cm !! n) as [c'|] eqn:Hcm.
  { intros [= <- <- <-]. split_and!; [done..|]. by apply Hok. }
  destruct (reach_closed h top n h_closed h_top Hreach) as [o Hn].
  rewrite (lookup_weaken _ _ _ _ Hn Hsub). simpl.
  destruct (copy_inputs (copy fuel) (inputs o) h1 cm []) as [[[h1' cm1] ins]|] eqn:Hins;
    simpl; [|done].
  intros [= <- <- <-].
  assert (∀ i, i ∈ inputs o → reach h top i) as Hreach_ins.
  { intros i Hi. eapply reach_trans; [done|]. eapply reach_step; [done..|constructor]. }
  destruct (copy_inputs_post (copy fuel) (inputs o) h1 cm [] h1' cm1 ins
              IH Hsub Hok Hreach_ins Hins)
    as (Hsub1 & Hok1 & cs & Hcs & Hcopies).
  simpl in Hcs. subst cs.
  pose proof (new_ref_fresh h1') as Hfresh.
  assert (h1' ⊆ <[new_ref h1' := Obj (kind_of o) ins]> h1') as Hsub2
    by (by apply insert_subseteq).
  assert (copy_of h (<[new_ref h1' := Obj (kind_of o) ins]> h1') n (new_ref h1')) as Hcopy.
  { eapply copy_fresh; [done| | |apply lookup_insert_eq|].
    - intros Hk. destruct Hok as [_ Hvars].
      rewrite Hvars in Hcm; [done|]. apply var_list_complete; [done|by exists o].
    - destruct (h !! new_ref h1') eqn:E; [|done].
      apply (lookup_weaken _ h1') in E; [congruence|by etrans].
    - eapply Forall2_impl; [done|]. intros. by eapply copy_of_weaken. }
  split_and!; [by etrans|split|done].
  - intros k c'. rewrite lookup_insert. destruct (decide (n = k)) as [<-|].
    + by intros [= <-].
    + intros Hk. eapply copy_of_weaken; [done|]. by apply Hok1.
  - intros v Hv. destruct Hok as [_ Hvars]. destruct Hok1 as [_ Hvars1].
    rewrite lookup_insert_ne; [by apply Hvars1|]. intros <-.
    rewrite Hvars in Hcm; done.
Qed.

End Copy.

Lemma identity_map_lookup (var_list : gset ref) k c :
  identity_map var_list !! k = Some c ↔ k ∈ var_list ∧ c = k.
Proof.
  unfold identity_map. rewrite lookup_set_to_map; [|naive_solver]. naive_solver.
Qed.

Lemma copy_up_to_variables_spec fuel h node h' c :
  closed h → leaves_without_inputs h → is_Some (h !! node) →
  copy_up_to_variables fuel h node = Some (h', c) →
  h ⊆ h' ∧ copy_of h h' node c.
Proof.
  intros Hcl Hleaves Hnode. unfold copy_up_to_variables.
  destruct (get_recursive_op_graph_vars fuel h ∅ node) as [[vars memo]|] eqn:Hvars;
    simpl; [|done].
  destruct (copy fuel h (identity_map vars) node) as [[[h1 cm1] c1]|] eqn:Hcopy;
    simpl; [|done].
  intros [= <- <-].
  destruct (get_recursive_op_graph_vars_complete h Hleaves _ _ _ _ Hvars)
    as [Hsound Hcomplete].
  destruct (copy_spec h node vars Hcl Hnode Hcomplete fuel h (identity_map vars)
              node h1 cm1 c1) as (Hsub & _ & Hc); try done.
  - split.
    + intros k c' Hk. apply identity_map_lookup in Hk as [Hk ->].
      constructor. by apply Hsound.
    + intros v Hv. by apply identity_map_lookup.
  - constructor.
Qed.


End AssignmentProofs.

(** *** An expression used by two blocks *)

#[local] Existing Instance default_order.

Lemma sort_node_by_bb_frame_witness :
  (∀ r o, shared_heap !! r = Some o → shared_heap_sorted !! r = Some o) ∧
  (closed shared_heap →
   ∀ r o i, is_Some (shared_heap !! r) → shared_heap_sorted !! r = Some o →
            i ∈ inputs o → is_Some (shared_heap !! i)).
Proof.
  apply (sort_node_by_bb_frame branches_only 10 shared_heap shared_bb_list
           shared_heap_sorted shared_bb_map).
  vm_compute; reflexivity.
Defined.


End NodeAssignmentTheory.

(** ** Phi placement *)

Module PhiPlacementTheory.

Import PhiPlacement.
Import IRTheory Examples.

(** Two facts on the sizes of sets, for the measure of the worklist. *)
Lemma size_remove (X : gset ref) (y : ref) :
  y ∈ X → size (X ∖ {[y]}) + 1 = size X.
Proof.
  intros Hy.
  assert (size ({[y]} ∪ (X ∖ {[y]})) = size X) as <-.
  { f_equal. symmetry. apply union_difference_L. set_solver. }
  pose proof (size_union (C := gset ref) {[y]} (X ∖ {[y]}) ltac:(set_solver)) as Hu.
  rewrite Hu, size_singleton. lia.
Qed.

Lemma size_add_le (X : gset ref) (y : ref) : size (X ∪ {[y]}) ≤ size X + 1.
Proof.
  pose proof (size_union_alt (C := gset ref) X {[y]}) as Hu.
  assert (size ({[y]} ∖ X : gset ref) ≤ size ({[y]} : gset ref)) as Hle
    by (apply subseteq_size; set_solver).
  rewrite size_singleton in Hle. lia.
Qed.

Section PhiProofs.
Context {order : IterOrder}.
Variable push_at_head : bool.

(** *** One phi-node *)

Lemma new_PhiNode_spec h v h' phi :
  new_PhiNode h v = (h', phi) →
  h !! phi = None ∧
  (∃ ops, h' !! phi = Some (Obj KPhiNode (v :: ops))) ∧
  (∀ r, is_Some (h !! r) → h' !! r = h !! r) ∧
  (∀ r o, h' !! r = Some o → is_Some (h !! r) ∨ kind_of o ≠ KBasicBlock) ∧
  (closed h → is_Some (h !! v) → closed h').
Proof.
  unfold new_PhiNode.
  destruct (alloc h (Obj KEmptyOperand [])) as [h1 e1] eqn:H1.
  destruct (alloc h1 (Obj KEmptyOperand [])) as [h2 e2] eqn:H2.
  intros H3.
  destruct (alloc_lookup_new _ _ _ _ H1) as [Hn1 Hs1].
  destruct (alloc_lookup_new _ _ _ _ H2) as [Hn2 Hs2].
  destruct (alloc_lookup_new _ _ _ _ H3) as [Hn3 Hs3].
  assert (∀ r, is_Some (h !! r) → h2 !! r = h !! r) as Hold2.
  { intros r Hr. rewrite (alloc_lookup_old _ _ _ _ r H2), (alloc_lookup_old _ _ _ _ r H1); try done.
    by rewrite (alloc_lookup_old _ _ _ _ r H1). }
  assert (∀ r, is_Some (h !! r) → h' !! r = h !! r) as Hold.
  { intros r Hr. rewrite (alloc_lookup_old _ _ _ _ r H3); [by apply Hold2|].
    by rewrite Hold2. }
  split_and!.
  - destruct (h !! phi) eqn:E; [|done]. rewrite <- Hold2 in E by (by eexists). congruence.
  - by eexists.
  - done.
  - intros r o Hr. destruct (decide (r = phi)) as [->|Hne3].
    { right. rewrite Hs3 in Hr. by injection Hr as <-. }
    injection H3 as <- <-. rewrite lookup_insert_ne in Hr by done.
    destruct (decide (r = e2)) as [->|Hne2].
    { right. rewrite Hs2 in Hr. by injection Hr as <-. }
    injection H2 as <- <-. rewrite lookup_insert_ne in Hr by done.
    destruct (decide (r = e1)) as [->|Hne1].
    { right. rewrite Hs1 in Hr. by injection Hr as <-. }
    injection H1 as <- <-. rewrite lookup_insert_ne in Hr by done.
    left. by eexists.
  - intros Hcl Hv.
    assert (closed h1) as Hcl1.
    { eapply alloc_closed; [exact H1|done|]. intros i Hi. by apply elem_of_nil in Hi. }
    assert (closed h2) as Hcl2.
    { eapply alloc_closed; [exact H2|done|]. intros i Hi. by apply elem_of_nil in Hi. }
    eapply alloc_closed; [exact H3|done|]. simpl. intros i Hi.
    assert (is_Some (h2 !! v)) by (by rewrite Hold2).
    assert (is_Some (h2 !! e1)).
    { rewrite (alloc_lookup_old _ _ _ _ e1 H2); by rewrite Hs1. }
    assert (is_Some (h2 !! e2)) by (by rewrite Hs2).
    set_solver.
Qed.

Lemma filter_length_ext {A} (P Q : A → Prop) `{∀ x, Decision (P x)}
    `{∀ x, Decision (Q x)} (l : list A) :
  (∀ x, x ∈ l → P x ↔ Q x) → length (filter P l) = length (filter Q l).
Proof.
  induction l as [|x l IH]; intros Hext; [done|].
  rewrite !filter_cons.
  pose proof (Hext x ltac:(by left)) as Hx.
  assert (length (filter P l) = length (filter Q l)) as Hl.
  { apply IH. intros y Hy. apply Hext. by right. }
  destruct (decide (P x)), (decide (Q x)); simpl; try lia; tauto.
Qed.

Lemma is_phi_for_ext h h' w r :
  h' !! r = h !! r → is_phi_for h' w r = is_phi_for h w r.
Proof. unfold is_phi_for. by intros ->. Qed.

Lemma is_phi_for_block h w r o :
  h !! r = Some o → kind_of o = KBasicBlock → is_phi_for h w r = false.
Proof. unfold is_phi_for. intros -> Hk. destruct o as [k ins]. simpl in Hk. by subst k. Qed.

Lemma place_phi_heap v y h oy :
  closed h → is_Some (h !! v) → h !! y = Some oy → kind_of oy = KBasicBlock →
  ∃ phi h', push push_at_head (new_PhiNode h v).1 y (new_PhiNode h v).2 = Some h' ∧
            phi = (new_PhiNode h v).2 ∧ phi_added v y h h'.
Proof.
  intros Hcl Hv Hy Hky.
  destruct (new_PhiNode h v) as [h1 phi] eqn:Hnew. simpl.
  destruct (new_PhiNode_spec h v h1 phi Hnew) as (Hfresh & [ops Hphi] & Hold & _ & Hcl1).
  specialize (Hcl1 Hcl Hv).
  assert (h1 !! y = Some oy) as Hy1 by (rewrite Hold; [done|by eexists]).
  assert (phi ≠ y) as Hne by (intros ->; congruence).
  unfold push. rewrite Hy1. simpl.
  set (ins' := if push_at_head then phi :: inputs oy else inputs oy ++ [phi]).
  set (h' := <[y := Obj (kind_of oy) ins']> h1).
  exists phi, h'. split_and!; [done..|].
  assert (∀ r, r ≠ y → is_Some (h !! r) → h' !! r = h !! r) as Hsame.
  { intros r Hr Hs. unfold h'. rewrite lookup_insert_ne by done. by apply Hold. }
  assert (h' !! y = Some (Obj (kind_of oy) ins')) as Hy' by apply lookup_insert_eq.
  assert (h' !! phi = Some (Obj KPhiNode (v :: ops))) as Hphi'.
  { unfold h'. by rewrite lookup_insert_ne. }
  assert (∀ i, i ∈ ins' ↔ i = phi ∨ i ∈ inputs oy) as Hins'.
  { intros i. unfold ins'. destruct push_at_head; set_solver. }
  assert (∀ w r, is_Some (h !! r) → is_phi_for h' w r = is_phi_for h w r) as Hphi_old.
  { intros w r Hr. destruct (decide (r = y)) as [->|Hry].
    - rewrite (is_phi_for_block h w y oy), (is_phi_for_block h' w y (Obj (kind_of oy) ins')); done.
    - apply is_phi_for_ext. by apply Hsame. }
  split_and!.
  - intros r o i Hr Hi. destruct (decide (r = y)) as [->|Hry].
    + rewrite Hy' in Hr. injection Hr as <-. simpl in Hi. apply Hins' in Hi as [->|Hi].
      * by rewrite Hphi'.
      * pose proof (Hcl _ _ _ Hy Hi) as Hsi.
        destruct (decide (i = y)) as [->|]; [by rewrite Hy'|].
        by rewrite Hsame.
    + unfold h' in Hr. rewrite lookup_insert_ne in Hr by done.
      destruct (Hcl1 _ _ _ Hr Hi) as [oi Hoi].
      destruct (decide (i = y)) as [->|]; [by rewrite Hy'|].
      unfold h'. rewrite lookup_insert_ne by done. by eexists.
  - intros r o Hr. destruct (decide (r = y)) as [->|Hry].
    + rewrite Hy'. eexists. split; [done|]. simpl. congruence.
    + exists o. split; [|done]. rewrite Hsame; [done|done|by eexists].
  - intros w b [ob Hb]. unfold phi_nodes_for. destruct (decide (b = y)) as [->|Hby].
    + rewrite Hy', Hy. simpl.
      assert (length (filter (λ op, is_phi_for h' w op = true) (inputs oy)) =
              length (filter (λ op, is_phi_for h w op = true) (inputs oy))) as Hlen.
      { apply filter_length_ext. intros i Hi. rewrite Hphi_old; [done|]. apply (Hcl _ _ _ Hy Hi). }
      assert (is_phi_for h' w phi = bool_decide (v = w)) as Hisphi.
      { unfold is_phi_for. by rewrite Hphi'. }
      unfold ins'. destruct push_at_head.
      * rewrite filter_cons. rewrite Hisphi.
        destruct (decide (w = v ∧ y = y)) as [[-> _]|Hn].
        -- rewrite bool_decide_true by done. rewrite decide_True by done. simpl. lia.
        -- rewrite bool_decide_false by naive_solver. rewrite decide_False by done. lia.
      * rewrite filter_app, length_app. rewrite filter_cons, filter_nil. rewrite Hisphi.
        destruct (decide (w = v ∧ y = y)) as [[-> _]|Hn].
        -- rewrite bool_decide_true by done. rewrite decide_True by done. simpl. lia.
        -- rewrite bool_decide_false by naive_solver. rewrite decide_False by done. simpl. lia.
    + rewrite Hsame by (done || by eexists). rewrite Hb. rewrite decide_False by naive_solver.
      rewrite Nat.add_0_r. apply filter_length_ext. intros i Hi.
      rewrite Hphi_old; [done|]. apply (Hcl _ _ _ Hb Hi).
Qed.

(** *** The worklist *)

Lemma frontier_of_range dfm x y :
  y ∈ frontier_of dfm x → y ∈ frontier_range dfm.
Proof.
  unfold frontier_of, frontier_range. destruct dfm as [m|]; [|set_solver].
  destruct (m !! x) as [s|] eqn:Hs; simpl; [|set_solver].
  intros Hy. apply elem_of_union_list. exists s. split; [|done].
  apply list_elem_of_fmap. exists (x, s). split; [done|]. by apply elem_of_map_to_list.
Qed.

Section Worklist.
Variable dfm : option (gmap ref (gset ref)).
Variable v : ref.
Variable defs : gset ref.
Variable h0 : heap.
Hypothesis h0_closed : closed h0.
Hypothesis h0_v : is_Some (h0 !! v).
Hypothesis h0_blocks :
  ∀ y, y ∈ frontier_range dfm → ∃ o, h0 !! y = Some o ∧ kind_of o = KBasicBlock.

(** Placing in one block of the frontier of the popped block [x]. *)
Lemma place_phi_inv x st y :
  worklist_inv dfm v defs h0 {[x]} st → x ∈ defs ∪ p_F st → y ∈ frontier_of dfm x →
  ∃ st', place_phi push_at_head v defs st y = Some st' ∧
         worklist_inv dfm v defs h0 {[x]} st' ∧ p_F st ⊆ p_F st' ∧ y ∈ p_F st' ∧
         worklist_measure dfm st' ≤ worklist_measure dfm st.
Proof.
  intros Hinv Hx Hy. unfold place_phi.
  destruct (decide (y ∈ p_F st)) as [HyF|HyF].
  { exists st. by split_and!. }
  pose proof (frontier_of_range _ _ _ Hy) as HyU.
  destruct (h0_blocks y HyU) as (oy0 & Hoy0 & Hky0).
  destruct (wi_kinds _ _ _ _ _ _ Hinv _ _ Hoy0) as (oy & Hoy & Hky).
  destruct h0_v as [ov0 Hov0].
  destruct (wi_kinds _ _ _ _ _ _ Hinv _ _ Hov0) as (ov & Hov & _).
  destruct (place_phi_heap v y (p_heap st) oy (wi_closed _ _ _ _ _ _ Hinv)
              ltac:(by eexists) Hoy ltac:(congruence))
    as (phi & h' & Hpush & Hphi & Hcl' & Hkinds' & Hcount').
  destruct (new_PhiNode (p_heap st) v) as [h1 phi'] eqn:Hnew. simpl in Hpush, Hphi. subst phi'.
  rewrite Hpush. simpl. eexists. split; [done|].
  split_and!; simpl; [|set_solver|set_solver|].
  - split; simpl.
    + intros z Hz. apply elem_of_union in Hz as [Hz|Hz]; [by apply (wi_sound _ _ _ _ _ _ Hinv)|].
      apply elem_of_singleton in Hz as ->.
      destruct (decide (x ∈ defs)) as [Hxd|Hxd].
      * by eapply idf_def.
      * eapply idf_placed; [|done..]. apply (wi_sound _ _ _ _ _ _ Hinv). set_solver.
    + pose proof (wi_W _ _ _ _ _ _ Hinv). destruct (decide (y ∈ defs)); set_solver.
    + intros z Hz.
      destruct (decide (z ∈ defs ∪ p_F st)) as [Hzo|Hzn].
      * destruct (wi_done _ _ _ _ _ _ Hinv z Hzo) as [?|[?|?]]; [by left| |].
        -- right; left. destruct (decide (y ∈ defs)); set_solver.
        -- right; right. set_solver.
      * assert (z = y) as -> by set_solver.
        right; left. rewrite decide_False by set_solver. set_solver.
    + pose proof (wi_range _ _ _ _ _ _ Hinv). set_solver.
    + done.
    + intros r o Hr. destruct (wi_kinds _ _ _ _ _ _ Hinv _ _ Hr) as (o1 & Hr1 & Hk1).
      destruct (Hkinds' _ _ Hr1) as (o2 & Hr2 & Hk2). exists o2. split; [done|congruence].
    + intros w b Hb. destruct Hb as [ob Hb].
      destruct (wi_kinds _ _ _ _ _ _ Hinv _ _ Hb) as (ob1 & Hb1 & _).
      rewrite Hcount' by (by eexists). rewrite (wi_count _ _ _ _ _ _ Hinv) by (by eexists).
      destruct (decide (w = v ∧ b ∈ p_F st)) as [[-> HbF]|Hn1].
      * rewrite decide_False by (intros [_ ->]; done).
        rewrite decide_True by set_solver. lia.
      * destruct (decide (w = v ∧ b = y)) as [[-> ->]|Hn2].
        -- rewrite decide_True by set_solver. lia.
        -- rewrite decide_False; [lia|]. intros [-> Hb']. set_solver.
  - unfold worklist_measure. simpl.
    assert (size (frontier_range dfm ∖ (p_F st ∪ {[y]})) + 1 =
            size (frontier_range dfm ∖ p_F st)) as Hsz.
    { replace (frontier_range dfm ∖ (p_F st ∪ {[y]}))
        with ((frontier_range dfm ∖ p_F st) ∖ {[y]}) by set_solver.
      apply size_remove. set_solver. }
    assert (size (if decide (y ∈ defs) then p_W st else p_W st ∪ {[y]}) ≤ size (p_W st) + 1).
    { destruct (decide (y ∈ defs)); [lia|]. apply size_add_le. }
    lia.
Qed.

Lemma place_phis_inv x ys st :
  worklist_inv dfm v defs h0 {[x]} st → x ∈ defs ∪ p_F st →
  (∀ y, y ∈ ys → y ∈ frontier_of dfm x) →
  ∃ st', place_phis push_at_head v defs ys st = Some st' ∧
         worklist_inv dfm v defs h0 {[x]} st' ∧ p_F st ⊆ p_F st' ∧
         (∀ y, y ∈ ys → y ∈ p_F st') ∧ worklist_measure dfm st' ≤ worklist_measure dfm st.
Proof.
  revert st. induction ys as [|y ys IH]; intros st Hinv Hx Hys; simpl.
  - exists st. split_and!; try done. intros y Hy. by apply elem_of_nil in Hy.
  - destruct (place_phi_inv x st y Hinv Hx (Hys y ltac:(by left)))
      as (st1 & Hplace & Hinv1 & Hsub1 & Hy1 & Hm1).
    rewrite Hplace. simpl.
    destruct (IH st1 Hinv1 ltac:(set_solver) ltac:(intros; apply Hys; by right))
      as (st' & Hrest & Hinv' & Hsub' & Hys' & Hm').
    exists st'. split_and!; try done; [set_solver| |lia].
    intros z Hz. apply elem_of_cons in Hz as [->|Hz]; [set_solver|by apply Hys'].
Qed.

Lemma iter_set_nil (s : gset ref) : iter_set s = [] → s = ∅.
Proof.
  intros Hnil. pose proof (iter_set_perm s) as Hperm. rewrite Hnil in Hperm.
  apply Permutation_nil_l in Hperm. symmetry in Hperm.
  by apply elements_empty_inv, leibniz_equiv in Hperm.
Qed.

Lemma iter_set_head (s : gset ref) x l : iter_set s = x :: l → x ∈ s.
Proof.
  intros Hcons. apply elem_of_elements. rewrite <- iter_set_perm, Hcons. by left.
Qed.

(** The [while] loop returns within the fuel left by the measure, with an
    empty worklist. *)
Lemma phi_worklist_terminates fuel st :
  worklist_inv dfm v defs h0 ∅ st → worklist_measure dfm st < fuel →
  ∃ st', phi_worklist push_at_head fuel dfm v defs st = Some st' ∧
         worklist_inv dfm v defs h0 ∅ st' ∧ p_W st' = ∅.
Proof.
  revert st. induction fuel as [|fuel IH]; intros st Hinv Hfuel; [lia|].
  simpl. destruct (iter_set (p_W st)) as [|x rest] eqn:HW.
  - exists st. split_and!; [done..|]. by apply iter_set_nil.
  - apply iter_set_head in HW as Hx.
    set (popped := {| p_heap := p_heap st; p_bb_map := p_bb_map st;
                      p_F := p_F st; p_W := p_W st ∖ {[x]} |}).
    assert (worklist_inv dfm v defs h0 {[x]} popped) as Hpop.
    { destruct Hinv. split; simpl; try done.
      - set_solver.
      - intros z Hz. destruct (wi_done0 z Hz) as [?|[?|?]]; [set_solver| |by right; right].
        destruct (decide (z = x)) as [->|]; [left|right; left]; set_solver. }
    assert (worklist_measure dfm popped + 1 = worklist_measure dfm st) as Hmp.
    { unfold worklist_measure, popped. simpl. pose proof (size_remove (p_W st) x Hx). lia. }
    assert (x ∈ defs ∪ p_F popped) as Hxd.
    { simpl. by apply (wi_W _ _ _ _ _ _ Hinv). }
    destruct (place_phis_inv x (iter_set (frontier_of dfm x)) popped Hpop Hxd)
      as (st1 & Hplace & Hinv1 & Hsub1 & Hall1 & Hm1).
    { intros y Hy. apply elem_of_elements. by rewrite <- iter_set_perm. }
    fold popped. rewrite Hplace. simpl. apply IH; [|lia].
    destruct Hinv1. split; try done.
    intros z Hz. destruct (wi_done0 z Hz) as [Hzx|[?|?]]; [|by right; left|by right; right].
    apply elem_of_singleton in Hzx as ->. right; right.
    intros y Hy. apply Hall1. rewrite iter_set_perm. by apply elem_of_elements.
Qed.

(** With an empty worklist, [F] holds the whole iterated frontier. *)
Lemma worklist_inv_complete st :
  worklist_inv dfm v defs h0 ∅ st → p_W st = ∅ → ∀ y, idf dfm defs y → y ∈ p_F st.
Proof.
  intros Hinv HW y Hidf. induction Hidf as [x y Hx Hy|x y _ IH Hx Hy].
  - destruct (wi_done _ _ _ _ _ _ Hinv x ltac:(set_solver)) as [?|[?|?]]; set_solver.
  - destruct (wi_done _ _ _ _ _ _ Hinv x ltac:(set_solver)) as [?|[?|?]]; set_solver.
Qed.

End Worklist.

(** What the store holds for [v] once its phi-nodes are placed: one more
    phi-node for [v] in each block of [F], and nothing else changed. *)
Lemma insert_phi_nodes_for_spec dfm variable_defs h bb_map v defs :
  variable_defs !! v = Some (DefBlocks defs) →
  closed h → is_Some (h !! v) →
  (∀ y, y ∈ frontier_range dfm → ∃ o, h !! y = Some o ∧ kind_of o = KBasicBlock) →
  ∃ st, insert_phi_nodes_for push_at_head dfm variable_defs h bb_map v = Some st ∧
        (∀ y, y ∈ p_F st ↔ idf dfm defs y) ∧
        closed (p_heap st) ∧
        (∀ r o, h !! r = Some o →
                ∃ o', p_heap st !! r = Some o' ∧ kind_of o' = kind_of o) ∧
        (∀ w b, is_Some (h !! b) →
                length (phi_nodes_for (p_heap st) w b) =
                length (phi_nodes_for h w b) +
                (if decide (w = v ∧ b ∈ p_F st) then 1 else 0)).
Proof.
  intros Hdefs Hcl Hv Hblocks. unfold insert_phi_nodes_for. rewrite Hdefs. simpl.
  set (st0 := {| p_heap := h; p_bb_map := bb_map; p_F := ∅; p_W := defs |}).
  assert (worklist_inv dfm v defs h ∅ st0) as Hinv0.
  { split; simpl; try done.
    - set_solver.
    - intros x Hx. right; left. set_solver.
    - intros r o Hr. by exists o.
    - intros w b _. rewrite decide_False by set_solver. lia. }
  destruct (phi_worklist_terminates dfm v defs h Hcl Hv Hblocks
              (phi_fuel dfm defs) st0 Hinv0) as (st & Hloop & Hinv & HW).
  { unfold worklist_measure, phi_fuel, st0. simpl.
    assert (size (frontier_range dfm ∖ ∅) ≤ size (frontier_range dfm))
      by (apply subseteq_size; set_solver).
    lia. }
  exists st. split_and!; [done| |by apply (wi_closed _ _ _ _ _ _ Hinv)
                          |by apply (wi_kinds _ _ _ _ _ _ Hinv)
                          |by apply (wi_count _ _ _ _ _ _ Hinv)].
  intros y. split; [by apply (wi_sound _ _ _ _ _ _ Hinv)|].
  by eapply worklist_inv_complete.
Qed.

(** The loop over the variables: the counts of the phi-nodes add up. *)
Lemma phi_node_insertion_loop_spec dfm variable_defs vs h bb_map :
  NoDup vs → closed h →
  (∀ v, v ∈ vs → is_Some (h !! v) ∧
                 ∃ defs, variable_defs !! v = Some (DefBlocks defs)) →
  (∀ y, y ∈ frontier_range dfm → ∃ o, h !! y = Some o ∧ kind_of o = KBasicBlock) →
  ∃ h' bb_map',
    phi_node_insertion_loop push_at_head dfm variable_defs vs h bb_map
      = Some (h', bb_map') ∧
    (∀ r o, h !! r = Some o → ∃ o', h' !! r = Some o' ∧ kind_of o' = kind_of o) ∧
    ∀ w b, is_Some (h !! b) →
      (w ∉ vs → length (phi_nodes_for h' w b) = length (phi_nodes_for h w b)) ∧
      (∀ defs, w ∈ vs → variable_defs !! w = Some (DefBlocks defs) →
         (idf dfm defs b →
          length (phi_nodes_for h' w b) = S (length (phi_nodes_for h w b))) ∧
         (¬ idf dfm defs b →
          length (phi_nodes_for h' w b) = length (phi_nodes_for h w b))).
Proof.
  revert h bb_map. induction vs as [|v vs IH]; intros h bb_map Hnd Hcl Hvars Hblocks.
  - exists h, bb_map. split_and!; [done|by eauto|].
    intros w b _. split; [done|]. intros defs Hw. by apply elem_of_nil in Hw.
  - apply NoDup_cons in Hnd as [Hv Hnd].
    destruct (Hvars v ltac:(by left)) as [Hhv [defs Hdefs]].
    destruct (insert_phi_nodes_for_spec dfm variable_defs h bb_map v defs
                Hdefs Hcl Hhv Hblocks) as (st & Hst & HF & Hcl1 & Hkinds1 & Hcount1).
    simpl. rewrite Hst. simpl.
    destruct (IH (p_heap st) (p_bb_map st) Hnd Hcl1) as (h' & bm' & Hloop & Hkinds' & Hcount').
    { intros w Hw. destruct (Hvars w ltac:(by right)) as [[ow How] Hd]. split; [|done].
      destruct (Hkinds1 _ _ How) as (o' & Ho' & _). by eexists. }
    { intros y Hy. destruct (Hblocks y Hy) as (o & Ho & Hk).
      destruct (Hkinds1 _ _ Ho) as (o' & Ho' & Hk'). exists o'. split; [done|congruence]. }
    exists h', bm'. split_and!; [done| |].
    + intros r o Hr. destruct (Hkinds1 _ _ Hr) as (o1 & Hr1 & Hk1).
      destruct (Hkinds' _ _ Hr1) as (o2 & Hr2 & Hk2). exists o2. split; [done|congruence].
    + intros w b [ob Hb]. destruct (Hkinds1 _ _ Hb) as (ob1 & Hb1 & _).
      destruct (Hcount' w b ltac:(by eexists)) as [Hout Hin].
      specialize (Hcount1 w b ltac:(by eexists)).
      split.
      * intros Hw. rewrite Hout by set_solver. rewrite Hcount1.
        rewrite decide_False; [lia|]. intros [-> _]. apply Hw. by left.
      * intros defs' Hw Hdefs'. apply elem_of_cons in Hw as [->|Hw].
        -- assert (defs' = defs) as -> by congruence.
           rewrite Hout by done. rewrite Hcount1. split; intros Hidf.
           ++ rewrite decide_True; [lia|]. split; [done|]. by apply HF.
           ++ rewrite decide_False; [lia|]. intros [_ HbF]. by apply Hidf, HF.
        -- assert (w ≠ v) as Hne by (intros ->; done).
           rewrite Hcount1 in Hin. rewrite decide_False in Hin by (intros [? _]; done).
           rewrite Nat.add_0_r in Hin. by apply Hin.
Qed.


End PhiProofs.

(** *** The self-test program *)

#[local] Existing Instance default_order.


End PhiPlacementTheory.

(** ** Renaming *)

Module RenamingTheory.

Import PhiPlacement Renaming.
Import IRTheory Examples.

(** The loop of [updating_reaching_def] follows the chain. *)
Lemma reaching_walk_spec fuel bbg rd current op r :
  reaching_walk fuel bbg rd current op = Some r →
  chain_reaches bbg rd op current r.
Proof.
  revert current. induction fuel as [|fuel IH]; intros current; simpl; [done|].
  destruct current as [c|]; [|intros [= <-]; constructor].
  destruct (def_dominates bbg c op) as [[]|] eqn:Hdom; simpl; [| |done].
  - intros [= <-]. by constructor.
  - destruct (rd !! c) as [next|] eqn:Hnext; simpl; [|done].
    intros Hwalk. eapply chain_next; [done..|]. by apply IH.
Qed.

Lemma chain_reaches_Some bbg rd op current c :
  chain_reaches bbg rd op current (Some c) → def_dominates bbg c op = Some true.
Proof.
  intros H. remember (Some c) as r eqn:Hr. induction H; [done| |by auto].
  by injection Hr as <-.
Qed.

(** C10: [updating_reaching_def] walks the chain of reaching definitions
    from [reaching_def[var]]; when the walk ends on [None] the dictionary
    is unchanged and the result is [False]; [reaching_def[var]] is
    rewritten only with a definition that dominates [op]. *)
Theorem updating_reaching_def_spec fuel bbg rd var op rd' changed :
  updating_reaching_def fuel bbg rd var op = Some (rd', changed) →
  ∃ start found,
    rd !! var = Some start ∧
    chain_reaches bbg rd op start found ∧
    match found with
    | None => rd' = rd ∧ changed = false
    | Some c =>
        def_dominates bbg c op = Some true ∧
        rd' = <[var := Some c]> rd ∧
        changed = bool_decide (Some c ≠ start)
    end.
Proof.
  unfold updating_reaching_def.
  destruct (rd !! var) as [start|] eqn:Hstart; simpl; [|done].
  destruct (reaching_walk fuel bbg rd start op) as [found|] eqn:Hwalk; simpl; [|done].
  apply reaching_walk_spec in Hwalk. intros Hres.
  exists start, found. split_and!; [done..|].
  destruct found as [c|].
  - injection Hres as <- <-. split_and!; [|done..]. by eapply chain_reaches_Some.
  - by injection Hres as <- <-.
Qed.


(** *** A definition that does not reach, and a use before any definition *)

Lemma updating_reaching_def_spec_witness :
  ∃ start found,
    unreached_reaching_def !! 0 = Some start ∧
    chain_reaches unreached_graph unreached_reaching_def 2 start found ∧
    match found with
    | None => unreached_reaching_def = unreached_reaching_def ∧ false = false
    | Some c =>
        def_dominates unreached_graph c 2 = Some true ∧
        unreached_reaching_def = <[0 := Some c]> unreached_reaching_def ∧
        false = bool_decide (Some c ≠ start)
    end.
Proof.
  apply (updating_reaching_def_spec 5 unreached_graph unreached_reaching_def
           0 2 unreached_reaching_def false).
  vm_compute; reflexivity.
Defined.



End RenamingTheory.

(** ** Lowering of the structured statements *)

Module LoweringTheory.

Import Lowering.
Import IRTheory Examples.

Section LoweringProofs.
Variable cfo : optree → bool.
Variable pah : bool.

(** *** The guard of [add_to_bb] *)

Lemma can_add_iff b : can_add cfo b = true ↔ may_append cfo b.
Proof.
  unfold can_add, may_append, empty.
  destruct (final b); simpl; [naive_solver|].
  destruct (bb_inputs b) as [|i0 l] eqn:Hl.
  - rewrite bool_decide_true by done. naive_solver.
  - rewrite bool_decide_false by done. simpl.
    destruct (last (i0 :: l)) as [i|] eqn:Hlast.
    + destruct (is_ControlFlowOperation cfo i) eqn:Hi; simpl.
      * split; [done|]. intros [_ [?|(i' & Hi' & Hf)]]; [done|]. congruence.
      * split; [|done]. intros _. split; [done|]. right. by exists i.
    + by apply last_None in Hlast.
Qed.

Lemma set_blocks_id st : set_blocks st (blocks st) = st.
Proof. by destruct st. Qed.

Lemma add_to_bb_attach bb i st b :
  blocks st !! bb = Some b →
  add_to_bb cfo bb i st = Some (set_blocks st (<[bb := attach cfo i b]> (blocks st))).
Proof.
  intros Hb. unfold add_to_bb, attach. rewrite Hb. simpl.
  destruct (can_add cfo b); [done|]. by rewrite insert_id, set_blocks_id.
Qed.

(** C8: [add_to_bb(bb, node)] returns, and appends [node] to [bb] if and
    only if [bb] is not final and is empty or does not end with a
    [ControlFlowOperation]; otherwise, and so for every final block, the
    state is unchanged. *)
Theorem add_to_bb_spec bb node st b :
  blocks st !! bb = Some b →
  ∃ st' b',
    add_to_bb cfo bb node st = Some st' ∧ blocks st' !! bb = Some b' ∧
    (bb_inputs b' = bb_inputs b ++ [node] ↔ may_append cfo b) ∧
    (may_append cfo b → st' = set_blocks st (<[bb := add b node]> (blocks st))) ∧
    (¬ may_append cfo b → st' = st) ∧
    (final b = true → st' = st).
Proof.
  intros Hb. unfold add_to_bb. rewrite Hb. simpl.
  destruct (can_add cfo b) eqn:Hcan.
  - apply can_add_iff in Hcan as Hmay. eexists _, (add b node).
    split_and!; [done|simpl; by rewrite lookup_insert_eq|done|done|done|].
    intros Hfinal. destruct Hmay as [Hf _]. congruence.
  - assert (¬ may_append cfo b) as Hnot.
    { intros Hmay. apply can_add_iff in Hmay. congruence. }
    exists st, b. split_and!; [done|done| |done|done|done].
    split; [|done]. intros Heq. apply (f_equal length) in Heq.
    rewrite length_app in Heq. simpl in Heq. lia.
Qed.

(** *** What lowering may touch *)

Lemma within_refl st pre top :
  current_bb_stack st = pre ++ [top] → within st st pre [top] top.
Proof.
  intros Hstack. split; try done.
  intros x Hx. apply list_elem_of_singleton in Hx as ->. by left.
Qed.

Lemma within_update st0 st pre new top x b :
  within st0 st pre new top → allowed st0 top x →
  within st0 (set_blocks st (<[x := b]> (blocks st))) pre new top.
Proof.
  intros [Hs0 Hs Hnew Hdom Hframe] Hx. split; simpl; try done.
  - intros y Hy. rewrite lookup_insert. destruct (decide (x = y)); [by eexists|by apply Hdom].
  - intros y Hy Hne. rewrite lookup_insert_ne; [by apply Hframe|].
    intros <-. destruct Hx as [->|Hx]; [done|]. rewrite Hx in Hy. by destruct Hy.
Qed.

Lemma within_last st0 st pre new x top :
  within st0 st pre (new ++ [x]) top → get_current_bb st = Some x.
Proof.
  intros [_ Hs _ _ _]. unfold get_current_bb. by rewrite Hs, app_assoc, last_snoc.
Qed.

Lemma within_allowed_last st0 st pre new x top :
  within st0 st pre (new ++ [x]) top → allowed st0 top x.
Proof. intros [_ _ Hnew _ _]. apply Hnew. set_solver. Qed.

Lemma within_push_node st0 st pre new x top i st' :
  within st0 st pre (new ++ [x]) top →
  push_to_current_bb pah i st = Some st' →
  within st0 st' pre (new ++ [x]) top.
Proof.
  intros Hw. unfold push_to_current_bb.
  pose proof (within_last _ _ _ _ _ _ Hw) as Hlast. unfold get_current_bb in Hlast.
  rewrite Hlast. simpl. destruct (blocks st !! x) as [b|]; simpl; [|done].
  intros [= <-]. apply within_update; [done|]. by eapply within_allowed_last.
Qed.

Lemma within_set_final st0 st pre new x top st' :
  within st0 st pre (new ++ [x]) top →
  set_final st = Some st' →
  within st0 st' pre (new ++ [x]) top.
Proof.
  intros Hw. unfold set_final.
  pose proof (within_last _ _ _ _ _ _ Hw) as Hlast. unfold get_current_bb in Hlast.
  rewrite Hlast. simpl. destruct (blocks st !! x) as [b|]; simpl; [|done].
  intros [= <-]. apply within_update; [done|]. by eapply within_allowed_last.
Qed.

Lemma within_add st0 st pre new top bb i st' :
  within st0 st pre new top → allowed st0 top bb →
  add_to_bb cfo bb i st = Some st' →
  within st0 st' pre new top ∧
  ∃ b, blocks st !! bb = Some b ∧
       blocks st' = <[bb := attach cfo i b]> (blocks st) ∧
       current_bb_stack st' = current_bb_stack st.
Proof.
  intros Hw Hbb Hadd. destruct (blocks st !! bb) as [b|] eqn:Hb.
  - rewrite (add_to_bb_attach _ _ _ _ Hb) in Hadd. injection Hadd as <-.
    split; [by apply within_update|]. by exists b.
  - unfold add_to_bb in Hadd. by rewrite Hb in Hadd.
Qed.

Lemma pop_current_bb_Some f st st' y :
  pop_current_bb f st = Some (st', Some y) →
  last (current_bb_stack st) = Some y ∧ is_Some (blocks st !! y) ∧
  blocks st' = blocks st ∧
  current_bb_stack st' = removelast (current_bb_stack st).
Proof.
  unfold pop_current_bb. destruct (last (current_bb_stack st)) as [top|]; [|done].
  destruct (blocks st !! top) as [b|] eqn:Hb; simpl; [|done].
  destruct (negb (empty b) || f); [|done].
  intros [= <- <-]. by split_and!.
Qed.

Lemma pop_current_bb_forced st :
  pop_current_bb true st = None ∨
  (∃ st' y, pop_current_bb true st = Some (st', Some y)) ∨
  (pop_current_bb true st = Some (st, None) ∧ current_bb_stack st = []).
Proof.
  unfold pop_current_bb. destruct (last (current_bb_stack st)) as [top|] eqn:Hlast.
  - destruct (blocks st !! top) as [b|]; simpl; [|by left].
    rewrite orb_true_r. right; left. by eexists _, _.
  - right; right. split; [done|]. by apply last_None.
Qed.

Lemma within_pop st0 st pre new x top f st' y :
  within st0 st pre (new ++ [x]) top →
  pop_current_bb f st = Some (st', Some y) →
  y = x ∧ blocks st' = blocks st ∧ within st0 st' pre new top.
Proof.
  intros Hw Hpop. apply pop_current_bb_Some in Hpop as (Hlast & _ & Hblocks & Hstack).
  pose proof (within_last _ _ _ _ _ _ Hw) as Hlast'. unfold get_current_bb in Hlast'.
  assert (y = x) as -> by congruence. split_and!; [done..|].
  destruct Hw as [Hs0 Hs Hnew Hdom Hframe]. split; try done.
  - by rewrite Hstack, Hs, app_assoc, removelast_last.
  - intros z Hz. apply Hnew. set_solver.
  - by rewrite Hblocks.
  - by rewrite Hblocks.
Qed.

Lemma within_new st0 st pre new top given st' id :
  within st0 st pre new top →
  push_new_bb given st = (st', id) →
  blocks st !! id = None ∧
  (∃ t, blocks st' = <[id := mkBasicBlock t [] false]> (blocks st)) ∧
  within st0 st' pre (new ++ [id]) top.
Proof.
  intros [Hs0 Hs Hnew Hdom Hframe]. unfold push_new_bb.
  destruct (get_new_bb_tag given st) as [t st1] eqn:Htag.
  assert (blocks st1 = blocks st ∧ current_bb_stack st1 = current_bb_stack st)
    as [Hb1 Hs1].
  { unfold get_new_bb_tag in Htag. destruct given; by injection Htag as <- <-. }
  intros [= <- <-]. rewrite Hb1, Hs1.
  set (id := fresh (dom (blocks st))).
  assert (blocks st !! id = None) as Hfresh.
  { apply (not_elem_of_dom (D := gset ref)). apply is_fresh. }
  split_and!; [done|by eexists|]. split; simpl; try done.
  - by rewrite Hs, app_assoc.
  - intros x Hx. apply elem_of_app in Hx as [Hx|Hx]; [by apply Hnew|].
    apply list_elem_of_singleton in Hx as ->. right.
    destruct (blocks st0 !! id) eqn:E; [|done].
    destruct (Hdom id ltac:(by eexists)) as [? ?]. congruence.
  - intros b Hb. rewrite lookup_insert. destruct (decide (id = b)); [by eexists|by apply Hdom].
  - intros b Hb Hne. rewrite lookup_insert_ne; [by apply Hframe|].
    intros <-. destruct (Hdom id Hb) as [? ?]. congruence.
Qed.

Lemma within_exec st0 st pre new x top st' r :
  within st0 st pre (new ++ [x]) top → frame st st' r →
  r = x ∧
  ∃ new2, new2 ≠ [] ∧ within st0 st' pre (new ++ new2) top ∧
          (∀ y, y ∈ new2 → y = x ∨ blocks st !! y = None) ∧
          (∀ b, is_Some (blocks st !! b) → is_Some (blocks st' !! b)) ∧
          (∀ b, is_Some (blocks st !! b) → b ≠ x → blocks st' !! b = blocks st !! b).
Proof.
  intros [Hs0 Hs Hnew Hdom Hframe] (pre' & top' & new2 & [Hs' Hs2 Hnew2 Hdom2 Hframe2] & Hne & ->).
  rewrite Hs, app_assoc in Hs'. apply app_inj_tail in Hs' as [<- <-].
  split; [done|]. exists new2. split_and!; try done.
  split; try done.
  - by rewrite Hs2, app_assoc.
  - intros y Hy. apply elem_of_app in Hy as [Hy|Hy]; [apply Hnew; set_solver|].
    destruct (Hnew2 y Hy) as [->|Hfresh]; [apply Hnew; set_solver|].
    right. destruct (blocks st0 !! y) eqn:E; [|done].
    destruct (Hdom y ltac:(by eexists)) as [? ?]. congruence.
  - intros b Hb. by apply Hdom2, Hdom.
  - intros b Hb Hne'. destruct (decide (b = x)) as [->|Hbx].
    + destruct (Hnew x ltac:(set_solver)) as [->|Hx]; [done|].
      rewrite Hx in Hb. by destruct Hb.
    + rewrite Hframe2; [by apply Hframe|by apply Hdom|done].
Qed.

(** *** The lowering of a [ConditionBlock] *)

Lemma get_current_bb_Some st x :
  get_current_bb st = Some x → ∃ pre, current_bb_stack st = pre ++ [x].
Proof. unfold get_current_bb. by rewrite last_Some. Qed.

Lemma nonempty_snoc {A} (l : list A) : l ≠ [] → ∃ l' x, l = l' ++ [x].
Proof.
  intros Hne. destruct (last l) as [x|] eqn:Hlast.
  - apply last_Some in Hlast as [l' ->]. by eexists _, _.
  - by apply last_None in Hlast.
Qed.

(** Lowering a branch from a state reached inside the construct. *)
Lemma lower_branch_within exec branch st0 st pre new x top st' entry :
  (∀ s s' r, exec branch s = Some (s', r) → frame s s' r) →
  within st0 st pre (new ++ [x]) top →
  lower_branch exec branch st = Some (st', entry) →
  is_Some (blocks st !! x) ∧
  blocks st !! entry = None ∧
  ∃ new2 last_bb,
    within st0 st' pre (new ++ new2 ++ [last_bb]) top ∧
    (∀ y, y ∈ new2 ++ [last_bb] → blocks st !! y = None) ∧
    (∀ b, is_Some (blocks st !! b) → blocks st' !! b = blocks st !! b).
Proof.
  intros Hexec Hw. unfold lower_branch.
  destruct (pop_current_bb true st) as [[st1 popped]|] eqn:Hpop; cbn [mbind option_bind]; [|done].
  destruct (pop_current_bb_forced st) as [?|[(st1' & y & Hpop')|[_ Hnil]]]; [congruence| |].
  2: { destruct Hw as [_ Hs _ _ _]. rewrite Hnil in Hs.
       destruct pre, new; simpl in Hs; discriminate. }
  rewrite Hpop' in Hpop. injection Hpop as <- <-.
  destruct (within_pop _ _ _ _ _ _ _ _ _ Hw Hpop') as (-> & Hb1 & Hw1).
  apply pop_current_bb_Some in Hpop' as (_ & Hx & _ & _).
  destruct (push_new_bb None st1') as [st2 id] eqn:Hnew.
  destruct (within_new _ _ _ _ _ _ _ _ Hw1 Hnew) as (Hfresh & [t Hb2] & Hw2).
  destruct (exec branch st2) as [[st3 r3]|] eqn:Hex; cbn [mbind option_bind]; [|done].
  intros [= <- <-].
  destruct (within_exec _ _ _ _ _ _ _ _ Hw2 (Hexec _ _ _ Hex))
    as (_ & new2 & Hne & Hw3 & Hnew2 & Hdom3 & Hframe3).
  destruct (nonempty_snoc new2 Hne) as (new2' & last_bb & ->).
  rewrite Hb1 in Hfresh. split_and!; [done..|].
  exists new2', last_bb. split_and!; [done| |].
  - intros z Hz. destruct (Hnew2 z Hz) as [->|Hz2]; [done|].
    rewrite Hb2, Hb1 in Hz2. rewrite lookup_insert in Hz2.
    by destruct (decide (id = z)).
  - intros b Hb. assert (b ≠ id) as Hne' by (intros ->; rewrite Hfresh in Hb; by destruct Hb).
    rewrite Hframe3; [|rewrite Hb2, Hb1, lookup_insert_ne; done|done].
    by rewrite Hb2, Hb1, lookup_insert_ne.
Qed.

(** For any [exec] that stays within its frame on the two branches. *)
Lemma transform_cb_to_bb_spec exec cond if_branch else_branch st st' r :
  (∀ s s' r', exec if_branch s = Some (s', r') → frame s s' r') →
  (∀ e, else_branch = Some e →
        ∀ s s' r', exec e s = Some (s', r') → frame s s' r') →
  transform_cb_to_bb cfo exec cond if_branch else_branch st = Some (st', r) →
  frame st st' r ∧ cb_result cfo exec cond if_branch else_branch st st' r.
Proof.
  intros Hif Helse. unfold transform_cb_to_bb.
  destruct (get_current_bb st) as [entry|] eqn:Hcur; cbn [mbind option_bind]; [|done].
  destruct (get_current_bb_Some _ _ Hcur) as [pre Hstack].
  pose proof (within_refl st pre entry Hstack) as Hw0.
  (* the if-branch *)
  destruct (pop_current_bb true st) as [[st1 p1]|] eqn:Hpop1; cbn [mbind option_bind]; [|done].
  destruct (push_new_bb None st1) as [st2 if_entry] eqn:Hnew1.
  destruct (exec if_branch st2) as [[st3 r3]|] eqn:Hex1; cbn [mbind option_bind]; [|done].
  assert (lower_branch exec if_branch st = Some (st3, if_entry)) as Hlow.
  { unfold lower_branch. rewrite Hpop1. cbn [mbind option_bind]. rewrite Hnew1, Hex1. done. }
  destruct (lower_branch_within exec if_branch st st pre [] entry entry st3 if_entry
              Hif Hw0 Hlow)
    as ([b_entry Hentry] & Hif_fresh & new2 & if_end & Hw3 & Hnew2 & Hframe3).
  simpl in Hw3.
  pose proof (within_last _ _ _ _ _ _ Hw3) as Hcur3.
  assert (blocks st3 !! entry = Some b_entry) as Hentry3
    by (rewrite Hframe3; [done|by eexists]).
  (* the end of the if-branch is sealed *)
  destruct (pop_current_bb true st3) as [[st4 p4]|] eqn:Hpop2; cbn [mbind option_bind]; [|done].
  destruct (pop_current_bb_forced st3) as [?|[(st4' & y & Hpop2')|[_ Hnil]]]; [congruence| |].
  2: { destruct Hw3 as [_ Hs _ _ _]. rewrite Hnil in Hs.
       destruct pre, new2; simpl in Hs; discriminate. }
  rewrite Hpop2' in Hpop2. injection Hpop2 as <- <-.
  destruct (within_pop _ _ _ _ _ _ _ _ _ Hw3 Hpop2') as (-> & Hb4 & Hw4).
  apply pop_current_bb_Some in Hpop2' as Hpop2''. destruct Hpop2'' as (_ & [b_if Hif_end] & _ & _).
  assert (blocks st !! if_end = None) as Hif_end_fresh by (apply Hnew2; set_solver).
  assert (if_end ≠ entry) as Hne_ie by (intros ->; congruence).
  destruct else_branch as [e|].
  - (* with an else-branch *)
    destruct (push_new_bb None st4') as [st5 else_entry] eqn:Hnew2'.
    destruct (exec e st5) as [[st6 r6]|] eqn:Hex2; cbn [mbind option_bind]; [|done].
    assert (lower_branch exec e st3 = Some (st6, else_entry)) as Hlow2.
    { unfold lower_branch. rewrite Hpop2'. cbn [mbind option_bind]. rewrite Hnew2', Hex2. done. }
    destruct (lower_branch_within exec e st st3 pre new2 if_end entry st6 else_entry
                (Helse e eq_refl) Hw3 Hlow2)
      as (_ & Helse_fresh & new3 & else_end & Hw6 & Hnew3 & Hframe6).
    pose proof (within_last st st6 pre (new2 ++ new3) else_end entry
                  ltac:(by rewrite <- app_assoc)) as Hcur6.
    destruct (pop_current_bb true st6) as [[st7 p7]|] eqn:Hpop3; cbn [mbind option_bind]; [|done].
    destruct (pop_current_bb_forced st6) as [?|[(st7' & y & Hpop3')|[_ Hnil]]]; [congruence| |].
    2: { destruct Hw6 as [_ Hs _ _ _]. rewrite Hnil in Hs.
         destruct pre, new2, new3; simpl in Hs; discriminate. }
    rewrite Hpop3' in Hpop3. injection Hpop3 as <- <-.
    rewrite app_assoc in Hw6.
    destruct (within_pop _ _ _ _ _ _ _ _ _ Hw6 Hpop3') as (-> & Hb7 & Hw7).
    apply pop_current_bb_Some in Hpop3' as Hpop3''.
    destruct Hpop3'' as (_ & [b_else Helse_end] & _ & _).
    destruct (push_new_bb None st7') as [st8 next] eqn:Hnew3'.
    destruct (within_new _ _ _ _ _ _ _ _ Hw7 Hnew3') as (Hnext_fresh & [t8 Hb8] & Hw8).
    cbn [mbind option_bind].
    assert (blocks st3 !! else_end = None) as Helse_end_fresh by (apply Hnew3; set_solver).
    assert (else_end ≠ entry) as Hne_ee by (intros ->; congruence).
    assert (else_end ≠ if_end) as Hne_ei by (intros ->; congruence).
    assert (blocks st6 !! entry = Some b_entry) as Hentry6
      by (rewrite Hframe6; [done|by eexists]).
    assert (blocks st6 !! if_end = Some b_if) as Hif_end6
      by (rewrite Hframe6; [done|by eexists]).
    rewrite Hb7 in Hnext_fresh, Hb8.
    assert (next ≠ entry) as Hne_ne by (intros ->; congruence).
    assert (next ≠ if_end) as Hne_ni by (intros ->; congruence).
    assert (next ≠ else_end) as Hne_nel by (intros ->; congruence).
    destruct (add_to_bb cfo else_end (UnconditionalBranch next) st8) as [st9|] eqn:Hadd1;
      cbn [mbind option_bind]; [|done].
    destruct (within_add _ _ _ _ _ _ _ _ Hw8 (within_allowed_last _ _ _ _ _ _ Hw6) Hadd1)
      as (Hw9 & b1 & Hb1 & Hb9 & Hs9).
    rewrite Hb8, lookup_insert_ne in Hb1 by done.
    assert (b1 = b_else) as -> by congruence.
    pose proof (within_last _ _ _ _ _ _ Hw9) as Hcur9. rewrite Hcur9. cbn [mbind option_bind].
    destruct (add_to_bb cfo entry _ st9) as [st10|] eqn:Hadd2; cbn [mbind option_bind]; [|done].
    destruct (within_add _ _ _ _ _ _ _ _ Hw9 ltac:(by left) Hadd2)
      as (Hw10 & b2 & Hb2 & Hb10 & Hs10).
    rewrite Hb9, Hb8, !lookup_insert_ne in Hb2 by done.
    assert (b2 = b_entry) as -> by congruence.
    destruct (add_to_bb cfo if_end _ st10) as [st11|] eqn:Hadd3; cbn [mbind option_bind]; [|done].
    destruct (within_add _ _ _ _ _ _ _ _ Hw10 (within_allowed_last _ _ _ _ _ _ Hw3) Hadd3)
      as (Hw11 & b3 & Hb3 & Hb11 & Hs11).
    rewrite Hb10, Hb9, Hb8, !lookup_insert_ne in Hb3 by done.
    assert (b3 = b_if) as -> by congruence.
    intros [= <- <-]. split.
    + exists pre, entry, ((new2 ++ new3) ++ [next]). split_and!; [done| |done].
      by destruct (new2 ++ new3).
    + exists b_entry, st3, if_entry, if_end, b_if, else_entry, next.
      split_and!; try done.
      * by eapply within_last.
      * rewrite Hb11, lookup_insert_ne by done. by rewrite Hb10, lookup_insert_eq.
      * by rewrite Hb11, lookup_insert_eq.
      * exists st6, else_end, b_else. split_and!; try done.
        rewrite Hb11, Hb10, !lookup_insert_ne by done. by rewrite Hb9, lookup_insert_eq.
  - (* without: the next block is the else target *)
    destruct (push_new_bb None st4') as [st5 next] eqn:Hnew2'.
    destruct (within_new _ _ _ _ _ _ _ _ Hw4 Hnew2') as (Hnext_fresh & [t5 Hb5] & Hw5).
    cbn [mbind option_bind].
    rewrite Hb4 in Hnext_fresh, Hb5.
    assert (next ≠ entry) as Hne_ne by (intros ->; congruence).
    assert (next ≠ if_end) as Hne_ni by (intros ->; congruence).
    pose proof (within_last _ _ _ _ _ _ Hw5) as Hcur5. rewrite Hcur5. cbn [mbind option_bind].
    destruct (add_to_bb cfo entry _ st5) as [st6|] eqn:Hadd2; cbn [mbind option_bind]; [|done].
    destruct (within_add _ _ _ _ _ _ _ _ Hw5 ltac:(by left) Hadd2)
      as (Hw6 & b2 & Hb2 & Hb6 & Hs6).
    rewrite Hb5, lookup_insert_ne in Hb2 by done.
    assert (b2 = b_entry) as -> by congruence.
    destruct (add_to_bb cfo if_end _ st6) as [st7|] eqn:Hadd3; cbn [mbind option_bind]; [|done].
    destruct (within_add _ _ _ _ _ _ _ _ Hw6 (within_allowed_last _ _ _ _ _ _ Hw3) Hadd3)
      as (Hw7 & b3 & Hb3 & Hb7 & Hs7).
    rewrite Hb6, Hb5, !lookup_insert_ne in Hb3 by done.
    assert (b3 = b_if) as -> by congruence.
    intros [= <- <-]. split.
    + exists pre, entry, (new2 ++ [next]). split_and!; [done| |done].
      by destruct new2.
    + exists b_entry, st3, if_entry, if_end, b_if, next, next.
      split_and!; try done.
      * by eapply within_last.
      * rewrite Hb7, lookup_insert_ne by done. by rewrite Hb6, lookup_insert_eq.
      * by rewrite Hb7, lookup_insert_eq.
Qed.

(** *** The frame of [execute_on_optree] *)

Lemma assert_pop_within st0 st pre new x top st' :
  within st0 st pre (new ++ [x]) top →
  assert_pop_current_bb st = Some st' →
  blocks st' = blocks st ∧ within st0 st' pre new top.
Proof.
  intros Hw. unfold assert_pop_current_bb.
  destruct (pop_current_bb false st) as [[st1 [y|]]|] eqn:Hpop; cbn [mbind option_bind]; [|done..].
  intros [= <-]. by destruct (within_pop _ _ _ _ _ _ _ _ _ Hw Hpop) as (_ & ? & ?).
Qed.

Lemma transform_loop_to_bb_frame exec init_statement loop_cond loop_body st st' r :
  (∀ s s' r', exec init_statement s = Some (s', r') → frame s s' r') →
  (∀ s s' r', exec loop_cond s = Some (s', r') → frame s s' r') →
  (∀ s s' r', exec loop_body s = Some (s', r') → frame s s' r') →
  transform_loop_to_bb cfo exec init_statement loop_cond loop_body st = Some (st', r) →
  frame st st' r.
Proof.
  intros Hinit Hcond Hbody. unfold transform_loop_to_bb.
  destruct (exec init_statement st) as [[st1 init_block]|] eqn:Hex1;
    cbn [mbind option_bind]; [|done].
  destruct (Hinit _ _ _ Hex1) as (pre & top & new1 & Hw1 & Hne1 & ->).
  destruct (nonempty_snoc new1 Hne1) as (n1 & x1 & ->).
  destruct (push_new_bb (Some tag_loop_header) st1) as [st2 hdr] eqn:Hnew1.
  destruct (within_new _ _ _ _ _ _ _ _ Hw1 Hnew1) as (_ & _ & Hw2).
  rewrite (within_last _ _ _ _ _ _ Hw2). cbn [mbind option_bind].
  destruct (add_to_bb cfo hdr (Node loop_cond) st2) as [st3|] eqn:Hadd1;
    cbn [mbind option_bind]; [|done].
  pose proof (within_allowed_last _ _ _ _ _ _ Hw2) as Hhdr.
  destruct (within_add _ _ _ _ _ _ _ _ Hw2 Hhdr Hadd1) as (Hw3 & _).
  destruct (exec loop_cond st3) as [[st4 r4]|] eqn:Hex2; cbn [mbind option_bind]; [|done].
  destruct (within_exec _ _ _ _ _ _ _ _ Hw3 (Hcond _ _ _ Hex2))
    as (_ & new2 & Hne2 & Hw4 & _).
  destruct (nonempty_snoc new2 Hne2) as (n2 & x2 & ->).
  rewrite app_assoc in Hw4.
  destruct (assert_pop_current_bb st4) as [st5|] eqn:Hpop1; cbn [mbind option_bind]; [|done].
  destruct (assert_pop_within _ _ _ _ _ _ _ Hw4 Hpop1) as (_ & Hw5).
  destruct (push_new_bb (Some tag_loop_body) st5) as [st6 body] eqn:Hnew2.
  destruct (within_new _ _ _ _ _ _ _ _ Hw5 Hnew2) as (_ & _ & Hw6).
  destruct (exec loop_body st6) as [[st7 body_bb]|] eqn:Hex3; cbn [mbind option_bind]; [|done].
  destruct (within_exec _ _ _ _ _ _ _ _ Hw6 (Hbody _ _ _ Hex3))
    as (-> & new3 & Hne3 & Hw7 & _).
  destruct (nonempty_snoc new3 Hne3) as (n3 & x3 & ->).
  rewrite app_assoc in Hw7.
  destruct (add_to_bb cfo body _ st7) as [st8|] eqn:Hadd2; cbn [mbind option_bind]; [|done].
  destruct (within_add _ _ _ _ _ _ _ _ Hw7 (within_allowed_last _ _ _ _ _ _ Hw6) Hadd2)
    as (Hw8 & _).
  destruct (assert_pop_current_bb st8) as [st9|] eqn:Hpop2; cbn [mbind option_bind]; [|done].
  destruct (assert_pop_within _ _ _ _ _ _ _ Hw8 Hpop2) as (_ & Hw9).
  destruct (push_new_bb (Some tag_loop_exit) st9) as [st10 next] eqn:Hnew3.
  destruct (within_new _ _ _ _ _ _ _ _ Hw9 Hnew3) as (_ & _ & Hw10).
  rewrite (within_last _ _ _ _ _ _ Hw10). cbn [mbind option_bind].
  destruct (add_to_bb cfo hdr _ st10) as [st11|] eqn:Hadd3; cbn [mbind option_bind]; [|done].
  destruct (within_add _ _ _ _ _ _ _ _ Hw10 Hhdr Hadd3) as (Hw11 & _).
  destruct (add_to_bb cfo top _ st11) as [st12|] eqn:Hadd4; cbn [mbind option_bind]; [|done].
  destruct (within_add _ _ _ _ _ _ _ _ Hw11 ltac:(by left) Hadd4) as (Hw12 & _).
  intros [= <- <-]. exists pre, top, ((((n1 ++ [x1]) ++ n2) ++ n3) ++ [next]).
  split_and!; [done| |done]. by destruct (((n1 ++ [x1]) ++ n2) ++ n3).
Qed.

Lemma execute_all_within exec ops st0 st pre new x top st' :
  Forall (λ op, ∀ s s' r, exec op s = Some (s', r) → frame s s' r) ops →
  within st0 st pre (new ++ [x]) top →
  execute_all exec ops st = Some st' →
  ∃ new', new' ≠ [] ∧ within st0 st' pre new' top.
Proof.
  intros Hall. revert st new x. induction Hall as [|op ops Hop _ IH]; intros st new x Hw; simpl.
  - intros [= <-]. exists (new ++ [x]). split; [by destruct new|done].
  - destruct (exec op st) as [[st1 r1]|] eqn:Hex; cbn [mbind option_bind]; [|done].
    destruct (within_exec _ _ _ _ _ _ _ _ Hw (Hop _ _ _ Hex)) as (_ & new2 & Hne2 & Hw1 & _).
    destruct (nonempty_snoc new2 Hne2) as (n2 & x2 & ->).
    rewrite app_assoc in Hw1. by eapply IH.
Qed.

(** Induction on the tree, through the lists and options of subtrees. *)
Lemma optree_ind' (P : optree → Prop) :
  (∀ cond if_branch else_branch,
     P cond → P if_branch → (∀ e, else_branch = Some e → P e) →
     P (ConditionBlock cond if_branch else_branch)) →
  (∀ init_statement loop_cond loop_body,
     P init_statement → P loop_cond → P loop_body →
     P (Loop init_statement loop_cond loop_body)) →
  (∀ value, P value → P (Return value)) →
  (∀ ops, Forall P ops → P (Statement ops)) →
  (∀ name, P (Other name)) →
  ∀ t, P t.
Proof.
  intros Hcb Hloop Hret Hstmt Hother. fix IH 1.
  intros [cond if_branch else_branch|a b c|value|ops|name].
  - apply Hcb; [apply IH..|]. destruct else_branch as [e'|].
    + intros e Heq. injection Heq as <-. apply IH.
    + intros e Heq. discriminate Heq.
  - apply Hloop; apply IH.
  - apply Hret, IH.
  - apply Hstmt. induction ops as [|op ops IHops]; constructor; [apply IH|apply IHops].
  - apply Hother.
Qed.

Lemma execute_on_optree_frame t :
  ∀ st st' r, execute_on_optree cfo pah t st = Some (st', r) → frame st st' r.
Proof.
  induction t as [cond if_branch else_branch _ IHif IHelse|a b c IHa IHb IHc
                 |value _|ops IHops|name] using optree_ind';
    intros st st' r; simpl;
    (destruct (get_current_bb st) as [entry|] eqn:Hcur; cbn [mbind option_bind]; [|done]).
  - intros Htr. by apply (transform_cb_to_bb_spec _ _ _ _ _ _ _ IHif IHelse) in Htr as [? _].
  - by apply transform_loop_to_bb_frame.
  - destruct (get_current_bb_Some _ _ Hcur) as [pre Hstack].
    pose proof (within_refl st pre entry Hstack) as Hw0.
    destruct (push_to_current_bb pah _ st) as [st1|] eqn:Hpush; cbn [mbind option_bind]; [|done].
    pose proof (within_push_node st st pre [] entry entry _ _ Hw0 Hpush) as Hw1.
    destruct (set_final st1) as [st2|] eqn:Hfinal; cbn [mbind option_bind]; [|done].
    pose proof (within_set_final st st1 pre [] entry entry _ Hw1 Hfinal) as Hw2.
    intros [= <- <-]. by exists pre, entry, [entry].
  - destruct (get_current_bb_Some _ _ Hcur) as [pre Hstack].
    pose proof (within_refl st pre entry Hstack) as Hw0.
    destruct (execute_all _ ops st) as [st1|] eqn:Hall; cbn [mbind option_bind]; [|done].
    destruct (execute_all_within _ ops st st pre [] entry entry st1 IHops Hw0 Hall)
      as (new' & Hne & Hw1).
    intros [= <- <-]. by exists pre, entry, new'.
  - destruct (get_current_bb_Some _ _ Hcur) as [pre Hstack].
    pose proof (within_refl st pre entry Hstack) as Hw0.
    destruct (push_to_current_bb pah _ st) as [st1|] eqn:Hpush; cbn [mbind option_bind]; [|done].
    pose proof (within_push_node st st pre [] entry entry _ _ Hw0 Hpush) as Hw1.
    intros [= <- <-]. by exists pre, entry, [entry].
Qed.

(** C6, as the code has it: [transform_cb_to_bb] returns the block
    current on entry; the [ConditionalBranch] to the entries of the
    branches (the join block for an absent else-branch) and the
    [UnconditionalBranch] to the join block are passed to [add_to_bb], so
    each is appended only to a block that is not final and does not end
    with a [ControlFlowOperation], and the block is left as it is
    otherwise. *)
Theorem transform_cb_to_bb_attaches cond if_branch else_branch st st' r :
  transform_cb_to_bb cfo (execute_on_optree cfo pah) cond if_branch else_branch st
    = Some (st', r) →
  cb_result cfo (execute_on_optree cfo pah) cond if_branch else_branch st st' r.
Proof.
  intros Htr. eapply transform_cb_to_bb_spec; [| |exact Htr].
  - apply execute_on_optree_frame.
  - intros e _. apply execute_on_optree_frame.
Qed.

End LoweringProofs.

(** *** Two conditionals *)

Lemma add_to_bb_spec_witness :
  ∃ st' b',
    add_to_bb no_control_flow 0 (Node (Other 1)) initial_translator = Some st' ∧
    blocks st' !! 0 = Some b' ∧
    (bb_inputs b' = bb_inputs (mkBasicBlock tag_main [] false) ++ [Node (Other 1)]
     ↔ may_append no_control_flow (mkBasicBlock tag_main [] false)) ∧
    (may_append no_control_flow (mkBasicBlock tag_main [] false) →
     st' = set_blocks initial_translator
             (<[0 := add (mkBasicBlock tag_main [] false) (Node (Other 1))]>
                (blocks initial_translator))) ∧
    (¬ may_append no_control_flow (mkBasicBlock tag_main [] false) →
     st' = initial_translator) ∧
    (final (mkBasicBlock tag_main [] false) = true → st' = initial_translator).
Proof.
  apply (add_to_bb_spec no_control_flow 0 (Node (Other 1)) initial_translator
           (mkBasicBlock tag_main [] false)).
  vm_compute; reflexivity.
Defined.

Lemma transform_cb_to_bb_attaches_witness :
  cb_result no_control_flow (execute_on_optree no_control_flow false)
    (Other 1) (Other 2) (Some (Other 3)) initial_translator if_else_lowered 0.
Proof.
  apply (transform_cb_to_bb_attaches no_control_flow false (Other 1) (Other 2)
           (Some (Other 3)) initial_translator if_else_lowered 0).
  vm_compute; reflexivity.
Defined.

(** [if c: return v] without an else-branch: the block 1 of the if-branch
    is final when the branch to the join block 2 is added, and stays without
    a branch. *)
Lemma transform_cb_to_bb_counterexample :
  execute_on_optree no_control_flow false
    (ConditionBlock (Other 1) (Return (Other 2)) None) initial_translator
  = Some (if_return_lowered, 0) ∧
  get_current_bb if_return_lowered = Some 2 ∧
  blocks if_return_lowered !! 1
  = Some (mkBasicBlock (tag_bb 0) [Node (Return (Other 2))] true).
Proof. split_and!; vm_compute; reflexivity. Qed.

End LoweringTheory.
